(** * fix-shape-spreads.py: a shallow embedding and its properties

    The script rewrites three TypeScript files in place.  For every file it
    reads the whole text, runs three [re.sub] calls one after the other and
    writes the result back, printing one line per file and a closing line.

    The development has four parts:
    - a small model of Python's [re] module, restricted to the constructs
      the three patterns use (literals, escaped literals, one capturing
      group, greedy [[...]+] character sets), with Python's backtracking
      order and the left-to-right, non-overlapping scan of [re.sub];
    - the script itself: the patterns and templates given by their source
      text, the per-file transformation, and the loop over [files_to_fix]
      in a state-and-exception monad over a file system and standard output;
    - a structural analysis of what the patterns match;
    - the properties.

    Text is a list of 8-bit characters.  The three patterns only name ASCII
    characters and their sets are closed under "any other character", so
    on UTF-8 text the model agrees with matching on code points. *)

From Stdlib Require Import Ascii String.
From stdpp Require Import base list strings gmap.

Local Open Scope char_scope.
Local Open Scope list_scope.

(** ** Text *)

Definition text := list ascii.

Definition nl : ascii := "010".

(** [lit "abc"] is the text of a Rocq string literal. *)
Definition lit (s : string) : text := list_ascii_of_string s.

(** A text given line by line, every line closed by a newline. *)
Definition unlines (ls : list string) : text :=
  flat_map (λ l, lit l ++ [nl]) ls.

(** ** A model of the [re] module *)

Module Re.

(** One member of a bracketed set: a single character or a range. *)
Inductive set_item :=
  | One (c : ascii)
  | Range (lo hi : ascii).

(** The pattern language.  A pattern is a sequence of nodes; the single
    capturing group is delimited by [GroupOpen] and [GroupClose], the way
    the compiled pattern of [re] marks group boundaries. *)
Inductive node :=
  | Chr (c : ascii)                                (* a literal character *)
  | PlusSet (neg : bool) (items : list set_item)   (* [[...]+] or [[^...]+] *)
  | GroupOpen
  | GroupClose.

Definition regex := list node.

(** The replacement template: literal characters and [\1]. *)
Inductive titem :=
  | TChr (c : ascii)
  | TGroup1.

Definition template := list titem.

(** *** Compiling pattern and template source text *)

Definition is_special (c : ascii) : bool :=
  bool_decide (c ∈ lit ".^$*+?{}[]|()\").

Definition is_alnum (c : ascii) : bool :=
  let n := nat_of_ascii c in
  ((48 <=? n) && (n <=? 57) || (65 <=? n) && (n <=? 90)
   || (97 <=? n) && (n <=? 122))%nat.

(** What an escape [\c] denotes: [\n] is the newline, and a backslash
    before a character that is not a letter or digit is that character. *)
Definition unescape (c : ascii) : option ascii :=
  if bool_decide (c = "n") then Some nl
  else if is_alnum c then None
  else Some c.

Inductive pmode :=
  | Top
  | InSet (neg : bool) (items : list set_item).

(** [parse m src acc]: [acc] holds the nodes read so far, last first. *)
Fixpoint parse (m : pmode) (src : text) (acc : regex) : option regex :=
  match m, src with
  | Top, [] => Some (rev acc)
  | Top, c :: src' =>
      if bool_decide (c = "\") then
        match src' with
        | e :: src'' =>
            match unescape e with
            | Some x => parse Top src'' (Chr x :: acc)
            | None => None
            end
        | [] => None
        end
      else if bool_decide (c = "(") then parse Top src' (GroupOpen :: acc)
      else if bool_decide (c = ")") then parse Top src' (GroupClose :: acc)
      else if bool_decide (c = "[") then
        match src' with
        | x :: src'' =>
            if bool_decide (x = "^") then parse (InSet true []) src'' acc
            else parse (InSet false []) src' acc
        | [] => None
        end
      else if is_special c then None
      else parse Top src' (Chr c :: acc)
  | InSet _ _, [] => None
  | InSet neg items, c :: src' =>
      if bool_decide (c = "]") then
        match src' with
        | p :: src'' =>
            if bool_decide (p = "+")
            then parse Top src'' (PlusSet neg (rev items) :: acc)
            else None
        | [] => None
        end
      else if bool_decide (c = "\") then
        match src' with
        | e :: src'' =>
            match unescape e with
            | Some x => parse (InSet neg (One x :: items)) src'' acc
            | None => None
            end
        | [] => None
        end
      else
        match src' with
        | d :: hi :: src'' =>
            if bool_decide (d = "-") && negb (bool_decide (hi = "]"))
            then parse (InSet neg (Range c hi :: items)) src'' acc
            else parse (InSet neg (One c :: items)) src' acc
        | _ => parse (InSet neg (One c :: items)) src' acc
        end
  end.

(** [re.compile]: [None] stands for [re.error] (or for a construct outside
    the modelled fragment). *)
Definition compile (src : string) : option regex := parse Top (lit src) [].

Fixpoint parse_template (src : text) : option template :=
  match src with
  | [] => Some []
  | c :: src' =>
      if bool_decide (c = "\") then
        match src' with
        | e :: src'' =>
            if bool_decide (e = "1") then cons TGroup1 <$> parse_template src''
            else if bool_decide (e = "n") then cons (TChr nl) <$> parse_template src''
            else if bool_decide (e = "\") then cons (TChr "\") <$> parse_template src''
            else if is_alnum e then None
            else (λ t, TChr "\" :: TChr e :: t) <$> parse_template src''
        | [] => None
        end
      else cons (TChr c) <$> parse_template src'
  end.

(** *** Matching *)

Definition in_item (c : ascii) (it : set_item) : bool :=
  match it with
  | One x => bool_decide (c = x)
  | Range lo hi =>
      ((nat_of_ascii lo <=? nat_of_ascii c)
       && (nat_of_ascii c <=? nat_of_ascii hi))%nat
  end.

Definition in_set (neg : bool) (items : list set_item) (c : ascii) : bool :=
  xorb neg (existsb (in_item c) items).

(** The state of one match attempt: how many characters have been consumed,
    where the group was opened, and the span of group 1 once closed. *)
Record mstate := MState {
  pos : nat;
  gopen : nat;
  g1 : option (nat * nat)
}.

Definition advance (st : mstate) : mstate :=
  MState (S (pos st)) (gopen st) (g1 st).

(** Greedy one-or-more over a character set, with backtracking: take the
    character, first try to take more, and only if everything after that
    fails continue with the rest of the pattern from here. *)
Fixpoint plus_greedy (f : ascii → bool) (k : text → mstate → option mstate)
    (s : text) (st : mstate) : option mstate :=
  match s with
  | c :: s' =>
      if f c then
        match plus_greedy f k s' (advance st) with
        | Some r => Some r
        | None => k s' (advance st)
        end
      else None
  | [] => None
  end.

Fixpoint run (r : regex) (s : text) (st : mstate) : option mstate :=
  match r with
  | [] => Some st
  | Chr c :: r' =>
      match s with
      | x :: s' => if bool_decide (x = c) then run r' s' (advance st) else None
      | [] => None
      end
  | PlusSet neg items :: r' => plus_greedy (in_set neg items) (run r') s st
  | GroupOpen :: r' => run r' s (MState (pos st) (pos st) (g1 st))
  | GroupClose :: r' => run r' s (MState (pos st) (gopen st) (Some (gopen st, pos st)))
  end.

(** [pattern.match(s)]: a match anchored at the start of [s]. *)
Definition match_at (r : regex) (s : text) : option mstate :=
  run r s (MState 0 0 None).

(** [m.group(1)] of a match that starts at the head of [s]; an unset group
    expands to the empty string. *)
Definition group1 (s : text) (m : mstate) : text :=
  match g1 m with
  | Some (b, e) => take (e - b) (drop b s)
  | None => []
  end.

Definition expand (t : template) (s : text) (m : mstate) : text :=
  flat_map (λ it, match it with TChr c => [c] | TGroup1 => group1 s m end) t.

(** [pattern.search(s)] as a yes/no question, trying every start position
    from left to right. *)
Fixpoint search (r : regex) (s : text) : bool :=
  match match_at r s with
  | Some _ => true
  | None => match s with
            | [] => false
            | _ :: s' => search r s'
            end
  end.

(** The scan of [re.sub]: at every position try to match; on success emit
    the expanded template and resume right after the match, otherwise copy
    one character.  [skip] counts the characters of the current match that
    are still to be passed over.  An empty match is replaced and the scan
    moves on by one character. *)
Fixpoint sub_from (r : regex) (t : template) (skip : nat) (s : text) : text :=
  match s with
  | [] =>
      match skip, match_at r [] with
      | 0, Some m => expand t [] m
      | _, _ => []
      end
  | c :: s' =>
      match skip with
      | S k => sub_from r t k s'
      | 0 =>
          match match_at r s with
          | Some m =>
              match pos m with
              | 0 => expand t s m ++ c :: sub_from r t 0 s'
              | S k => expand t s m ++ sub_from r t k s'
              end
          | None => c :: sub_from r t 0 s'
          end
      end
  end.

(** [re.search(pattern, s) is not None] on source text of the pattern. *)
Definition has_match (pattern : string) (s : text) : option bool :=
  r ← compile pattern;
  Some (search r s).

(** [pattern.match(s)] succeeds and the match is all of [s]. *)
Definition matches_whole (r : regex) (s : text) : bool :=
  match match_at r s with
  | Some m => bool_decide (pos m = length s)
  | None => false
  end.

(** [re.sub(pattern, repl, string)] on source text of pattern and template. *)
Definition sub (pattern repl : string) (s : text) : option text :=
  r ← compile pattern;
  t ← parse_template (lit repl);
  Some (sub_from r t 0 s).

End Re.

(** ** The script *)

Definition files_to_fix : list string :=
  [ "src/tools/discovery.ts";
    "src/tools/reading.ts";
    "src/schemas/common.ts" ]%string.

(** Pattern 1: with trailing comma before the spread. *)
Definition pattern1 : string :=
  "(    [a-zA-Z_]+: [^,\n]+,)\n    \.\.\.PaginationSchema\.shape\n  \}\)\n  \.strict\(\)".
Definition replacement1 : string :=
  "\1\n  })\n  .merge(PaginationSchema)\n  .strict()".

(** Pattern 2: without trailing comma (response_format is last). *)
Definition pattern2 : string :=
  "(    response_format: ResponseFormatSchema),\n    \.\.\.PaginationSchema\.shape\n  \}\)\n  \.strict\(\)".
Definition replacement2 : string :=
  "\1\n  })\n  .merge(PaginationSchema)\n  .strict()".

(** Pattern 3: the less indented form, meant for common.ts. *)
Definition pattern3 : string :=
  "(  [a-zA-Z_]+: [^,\n]+,)\n  \.\.\.PaginationSchema\.shape\n\}\)\n\.strict\(\)".
Definition replacement3 : string :=
  "\1\n})\n.merge(PaginationSchema)\n.strict()".

(** The body of the loop between reading and writing. *)
Definition transform (content : text) : option text :=
  content ← Re.sub pattern1 replacement1 content;
  content ← Re.sub pattern2 replacement2 content;
  content ← Re.sub pattern3 replacement3 content;
  Some content.

(** *** Files, standard output and exceptions *)

Inductive exn :=
  | FileNotFoundError (path : string)
  | PermissionError (path : string)
  | OSError (path : string)
  | UnicodeDecodeError (path : string)
  | UnicodeEncodeError
  | ReError.

(** A file on disk, as this run meets it: the text a successful read
    returns (the bytes decoded, line ends translated), and how each
    operation the script performs on it goes.  [decodes] says whether the
    bytes are valid in the encoding the file is opened with; [write_room] is
    how many characters a write stores before the device refuses more
    ([None]: no limit).  The file is written in the encoding it was read
    in, and the templates add ASCII text only, so encoding what is written
    does not fail. *)
Record file := File {
  content : text;
  can_open_r : bool;
  can_read : bool;
  decodes : bool;
  can_open_w : bool;
  write_room : option nat
}.

Definition with_content (f : file) (c : text) : file :=
  File c (can_open_r f) (can_read f) (decodes f) (can_open_w f) (write_room f).

Inductive event :=
  | Opened (path : string) (mode : ascii)
  | ReadAll (path : string)
  | Wrote (path : string) (data : text)
  | Printed (line : text).

(** The world the script runs in.  [stdout_encode] is the encoding of the
    standard-output stream, which the interpreter sets up from the
    environment (PYTHONIOENCODING, the locale): the bytes the stream
    receives for a text, or [None] when the text cannot be encoded.
    [argv] is there to be ignored; [trace] records the operations that
    went through, oldest first. *)
Record world := World {
  fs : gmap string file;
  stdout : text;
  trace : list event;
  argv : list string;
  stdout_encode : text → option text
}.

Definition set_fs (g : gmap string file) (w : world) : world :=
  World g (stdout w) (trace w) (argv w) (stdout_encode w).
Definition set_stdout (o : text) (w : world) : world :=
  World (fs w) o (trace w) (argv w) (stdout_encode w).
Definition log (e : event) (w : world) : world :=
  World (fs w) (stdout w) (trace w ++ [e]) (argv w) (stdout_encode w).

(** Computations that may raise and that change the world. *)
Definition M (A : Type) : Type := world → (exn + A) * world.

Definition ret {A} (a : A) : M A := λ w, (inr a, w).
Definition raise {A} (e : exn) : M A := λ w, (inl e, w).
Definition bind {A B} (m : M A) (k : A → M B) : M B :=
  λ w, match m w with
       | (inr a, w') => k a w'
       | (inl e, w') => (inl e, w')
       end.

Notation "x <- m ;; k" := (bind m (λ x, k))
  (at level 100, m at next level, right associativity).
Notation "m ;;; k" := (bind m (λ _, k))
  (at level 100, right associativity).

(** [open(path, 'r')]; the handle is the path. *)
Definition open_r (path : string) : M string :=
  λ w, match fs w !! path with
       | None => (inl (FileNotFoundError path), w)
       | Some f =>
           if can_open_r f then (inr path, log (Opened path "r") w)
           else (inl (PermissionError path), w)
       end.

(** [f.read()]: the bytes are read and then decoded. *)
Definition read (h : string) : M text :=
  λ w, match fs w !! h with
       | Some f =>
           if can_read f then
             if decodes f then (inr (content f), log (ReadAll h) w)
             else (inl (UnicodeDecodeError h), w)
           else (inl (OSError h), w)
       | None => (inl (OSError h), w)
       end.

(** [open(path, 'w')]: the file is truncated, or created when absent. *)
Definition open_w (path : string) : M string :=
  λ w, match fs w !! path with
       | None =>
           (inr path,
            log (Opened path "w")
              (set_fs (<[path := File [] true true true true None]> (fs w)) w))
       | Some f =>
           if can_open_w f then
             (inr path,
              log (Opened path "w")
                (set_fs (<[path := with_content f []]> (fs w)) w))
           else (inl (PermissionError path), w)
       end.

(** Whether the device takes all of [data], and what it stores of it. *)
Definition fits (room : option nat) (data : text) : bool :=
  match room with
  | None => true
  | Some n => (length data <=? n)%nat
  end.

Definition stored (room : option nat) (data : text) : text :=
  match room with
  | None => data
  | Some n => take n data
  end.

(** [f.write(data)] up to the closing of the file: what the device takes
    is appended to what the file holds since it was opened; when it does
    not take all of it the write fails and the file keeps the part that
    was stored. *)
Definition write (h : string) (data : text) : M unit :=
  λ w, match fs w !! h with
       | Some f =>
           let w' :=
             set_fs (<[h := with_content f (content f ++ stored (write_room f) data)]>
                       (fs w)) w in
           if fits (write_room f) data then (inr (), log (Wrote h data) w')
           else (inl (OSError h), w')
       | None => (inl (OSError h), w)
       end.

(** [print(line)]: the line and its newline are encoded for the stream. *)
Definition print (line : text) : M unit :=
  λ w, match stdout_encode w (line ++ [nl]) with
       | Some bytes =>
           (inr (), log (Printed line) (set_stdout (stdout w ++ bytes) w))
       | None => (inl UnicodeEncodeError, w)
       end.

(** An exception of [re] surfaces like any other. *)
Definition lift_re {A} (o : option A) : M A :=
  match o with
  | Some a => ret a
  | None => raise ReError
  end.

Fixpoint for_each {A} (l : list A) (body : A → M unit) : M unit :=
  match l with
  | [] => ret ()
  | x :: l' => body x ;;; for_each l' body
  end.

(** The check mark U+2713 as UTF-8. *)
Definition check_mark : text := ["226"; "156"; "147"].

(** The body of the [for] loop. *)
Definition fix_file (filepath : string) : M unit :=
  f <- open_r filepath ;;
  content <- read f ;;
  content <- lift_re (transform content) ;;
  f <- open_w filepath ;;
  write f content ;;;
  print (check_mark ++ lit " Fixed " ++ lit filepath).

Definition main : M unit :=
  for_each files_to_fix fix_file ;;;
  print (nl :: lit "Done! All files fixed.").

(** ** Vocabulary for the analysis *)

(** [tok in s], by trying every position. *)
Fixpoint starts_with (p s : text) {struct p} : bool :=
  match p, s with
  | [], _ => true
  | _ :: _, [] => false
  | a :: p', b :: s' => bool_decide (a = b) && starts_with p' s'
  end.

Fixpoint contains (p s : text) : bool :=
  starts_with p s || match s with
                     | [] => false
                     | _ :: s' => contains p s'
                     end.

(** The number of positions of [s] at which [p] occurs. *)
Fixpoint occurrences (p s : text) : nat :=
  (if starts_with p s then 1 else 0) +
  match s with
  | [] => 0
  | _ :: s' => occurrences p s'
  end.

(** The spread token and the call that replaces it. *)
Definition spread : text := lit "...PaginationSchema.shape".
Definition merge_call : text := lit ".merge(PaginationSchema)".

(** The two character sets of patterns 1 and 3. *)
Definition ident_char : ascii → bool :=
  Re.in_set false [Re.Range "a" "z"; Re.Range "A" "Z"; Re.One "_"].
Definition value_char : ascii → bool :=
  Re.in_set true [Re.One ","; Re.One nl].

(** Patterns 1 and 3 have one shape and differ in two indentations: that
    of the field and spread lines ([ind]) and that of the closing lines
    ([ind2]).  What follows the captured field line in the input ... *)
Definition closing (ind2 : text) : text :=
  nl :: ind2 ++ lit "})" ++ nl :: ind2 ++ lit ".strict()".
Definition spread_tail (ind ind2 : text) : text :=
  nl :: ind ++ spread ++ closing ind2.

(** ... and what the template puts after it. *)
Definition merge_tail (ind2 : text) : text :=
  nl :: ind2 ++ lit "})" ++ nl :: ind2 ++ merge_call ++ nl :: ind2 ++ lit ".strict()".

Arguments spread_tail : simpl never.
Arguments merge_tail : simpl never.

Definition field_regex (ind ind2 : text) : Re.regex :=
  Re.GroupOpen :: map Re.Chr ind ++
  Re.PlusSet false [Re.Range "a" "z"; Re.Range "A" "Z"; Re.One "_"] ::
  Re.Chr ":" :: Re.Chr " " ::
  Re.PlusSet true [Re.One ","; Re.One nl] ::
  Re.Chr "," :: Re.GroupClose :: map Re.Chr (spread_tail ind ind2).

Definition merge_template (ind2 : text) : Re.template :=
  Re.TGroup1 :: map Re.TChr (merge_tail ind2).

Definition ind4 : text := lit "    ".
Definition ind2 : text := lit "  ".
Definition ind0 : text := [].

(** The three substitutions as functions on text. *)
Definition rewrite (ind ind' : text) (s : text) : text :=
  Re.sub_from (field_regex ind ind') (merge_template ind') 0 s.

Definition sub1 : text → text := rewrite ind4 ind2.
Definition sub3 : text → text := rewrite ind2 ind0.

Definition field2 : text := lit "    response_format: ResponseFormatSchema".

Definition regex2 : Re.regex :=
  Re.GroupOpen :: map Re.Chr field2 ++
  Re.GroupClose :: Re.Chr "," :: map Re.Chr (spread_tail ind4 ind2).

Definition sub2 (s : text) : text :=
  Re.sub_from regex2 (merge_template ind2) 0 s.

(** A captured field line: indentation, a name, [": "], a value without
    comma or newline, and the comma. *)
Inductive is_field (ind : text) : text → Prop :=
  | IsField name value :
      name ≠ [] → forallb ident_char name = true →
      value ≠ [] → forallb value_char value = true →
      is_field ind (ind ++ name ++ lit ": " ++ value ++ [","]).

(** A match of the pattern with indentations [ind], [ind'] begins here. *)
Definition starts (ind ind' : text) (s : text) : Prop :=
  ∃ cap rest, is_field ind cap ∧ s = cap ++ spread_tail ind ind' ++ rest.

(** ... or somewhere in [s]. *)
Definition occurs (ind ind' : text) (s : text) : Prop :=
  ∃ p q, s = p ++ q ∧ starts ind ind' q.

(** [x] alone already rules out that [x ++ y] begins with [ind] followed by
    a name character. *)
Fixpoint head_block (ind x : text) {struct x} : bool :=
  match x with
  | [] => false
  | c :: x' =>
      match ind with
      | [] => negb (ident_char c)
      | i :: ind' => if bool_decide (i = c) then head_block ind' x' else true
      end
  end.

(** All non-empty suffixes of a text. *)
Fixpoint tails1 (x : text) : list text :=
  match x with
  | [] => []
  | _ :: x' => x :: tails1 x'
  end.

(** [a] and [b] differ at a position both have. *)
Fixpoint clash (a b : text) {struct a} : bool :=
  match a, b with
  | x :: a', y :: b' => negb (bool_decide (x = y)) || clash a' b'
  | _, _ => false
  end.

Definition shift (n : nat) (st : Re.mstate) : Re.mstate :=
  Re.MState (Re.pos st + n) (Re.gopen st) (Re.g1 st).

(** ** Vocabulary for the run *)

(** The text the loop body computes from what it read. *)
Definition fixed_text (s : text) : text := sub3 (sub2 (sub1 s)).

(** Every operation of the loop body on the file goes through: it can be
    opened and read, its bytes decode, it can be opened for writing and the
    device takes the whole new text. *)
Definition usable (f : file) : bool :=
  can_open_r f && can_read f && decodes f && can_open_w f
  && fits (write_room f) (fixed_text (content f)).

(** What [print] hands to standard output for one file, and at the end. *)
Definition confirmation (path : string) : text :=
  check_mark ++ lit " Fixed " ++ lit path ++ [nl].

Definition completion : text :=
  nl :: lit "Done! All files fixed." ++ [nl].

(** What the stream receives for a text it can encode. *)
Definition emitted (w : world) (t : text) : text :=
  default [] (stdout_encode w t).

(** The operations of one successful pass of the loop body. *)
Definition file_events (path : string) (out : text) : list event :=
  [ Opened path "r"; ReadAll path; Opened path "w"; Wrote path out;
    Printed (check_mark ++ lit " Fixed " ++ lit path) ].

(** The world after one successful pass of the loop body. *)
Definition done_file (w : world) (path : string) : world :=
  match fs w !! path with
  | Some f =>
      World (<[path := with_content f (fixed_text (content f))]> (fs w))
            (stdout w ++ emitted w (confirmation path))
            (trace w ++ file_events path (fixed_text (content f)))
            (argv w) (stdout_encode w)
  | None => w
  end.

(** The text of a file, empty when there is none. *)
Definition content_of (w : world) (path : string) : text :=
  from_option content [] (fs w !! path).

(** The world and the operations after the loop has passed over [l]. *)
Definition after (w : world) (l : list string) : world := foldl done_file w l.

Definition events_of (w : world) (l : list string) : list event :=
  flat_map (λ p, file_events p (fixed_text (content_of w p))) l.

(** The writes recorded in a trace. *)
Definition writes_of (tr : list event) : list (string * text) :=
  flat_map (λ e, match e with Wrote p d => [(p, d)] | _ => [] end) tr.




(** The message of the last [print]. *)
Definition done_message : text := nl :: lit "Done! All files fixed.".

(** [s.count(c)] for a single character. *)
Definition count_char (c : ascii) (s : text) : nat :=
  length (filter (λ x, x = c) s).



(** ** Sample texts *)

(** A schema in the form pattern 1 (and pattern 2) is written for. *)
Definition sample_reading : text := unlines
  [ "export const GetRecordsSchema = z";
    "  .object({";
    "    docId: DocIdSchema,";
    "    response_format: ResponseFormatSchema,";
    "    ...PaginationSchema.shape";
    "  })";
    "  .strict()" ]%string.

Definition sample_reading_fixed : text := unlines
  [ "export const GetRecordsSchema = z";
    "  .object({";
    "    docId: DocIdSchema,";
    "    response_format: ResponseFormatSchema,";
    "  })";
    "  .merge(PaginationSchema)";
    "  .strict()" ]%string.

(** A schema in the form pattern 3 is written for. *)
Definition sample_common : text := unlines
  [ "export const PagedSchema = z.object({";
    "  response_format: ResponseFormatSchema,";
    "  ...PaginationSchema.shape";
    "})";
    ".strict()" ]%string.

Definition sample_common_fixed : text := unlines
  [ "export const PagedSchema = z.object({";
    "  response_format: ResponseFormatSchema,";
    "})";
    ".merge(PaginationSchema)";
    ".strict()" ]%string.

(** The same block as in [sample_reading], indented two levels deeper. *)
Definition sample_reindented : text := unlines
  [ "export const S = z";
    "  .object({";
    "      limit: z.number(),";
    "      ...PaginationSchema.shape";
    "    })";
    "    .strict()" ]%string.

(** The block of pattern 1 after a field whose value contains a comma. *)
Definition sample_comma_value : text := unlines
  [ "export const ListSchema = z";
    "  .object({";
    "    sort: z.enum(['asc', 'desc']),";
    "    ...PaginationSchema.shape";
    "  })";
    "  .strict()" ]%string.

(** The spread as the only entry of the object. *)
Definition sample_bare : text := unlines
  [ "export const S = z";
    "  .object({";
    "    ...PaginationSchema.shape";
    "  })";
    "  .strict()" ]%string.

(** A text in which the spread token does not occur. *)
Definition sample_plain : text := unlines
  [ "export const LimitSchema = z";
    "  .object({";
    "    limit: z.number(),";
    "  })";
    "  .strict()" ]%string.

(** ** Sample worlds *)

Definition ok_file (c : text) : file := File c true true true true None.

(** A UTF-8 standard output takes every text as it is; an ASCII one
    refuses text with a character beyond 127. *)
Definition utf8_stdout (t : text) : option text := Some t.

Definition ascii_stdout (t : text) : option text :=
  if forallb (λ c, (nat_of_ascii c <? 128)%nat) t then Some t else None.

(** The three files in place, all usable; the first has nothing to fix. *)
Definition sample_world : world :=
  World (<["src/tools/discovery.ts"%string := ok_file sample_reindented]>
         (<["src/tools/reading.ts"%string := ok_file sample_reading]>
          (<["src/schemas/common.ts"%string := ok_file sample_common]> ∅)))
        [] [] [] utf8_stdout.


(** The same three files, run with an ASCII standard output (as with
    PYTHONIOENCODING=ascii). *)
Definition sample_world_ascii : world :=
  World (fs sample_world) [] [] [] ascii_stdout.

(** The second file cannot be opened for writing. *)
Definition sample_world_readonly : world :=
  World (<["src/tools/reading.ts"%string :=
             File sample_reading true true true false None]>
         (fs sample_world))
        [] [] [] utf8_stdout.

(** The first file is missing. *)
Definition sample_world_missing : world :=
  World (delete "src/tools/discovery.ts"%string (fs sample_world))
        [] [] [] utf8_stdout.

(** The device takes twenty characters of the second file and no more. *)
Definition sample_world_full : world :=
  World (<["src/tools/reading.ts"%string :=
             File sample_reading true true true true (Some 20)]>
         (fs sample_world))
        [] [] [] utf8_stdout.

(** A closed, decidable fact about concrete text, settled by evaluation. *)
Ltac text_fact := apply (bool_decide_unpack _); vm_compute; exact I.

(** * Properties *)

(** ** The three patterns compile to the expected shapes *)

Lemma compile_pattern1 : Re.compile pattern1 = Some (field_regex ind4 ind2).
Proof. vm_compute. reflexivity. Qed.

Lemma compile_pattern2 : Re.compile pattern2 = Some regex2.
Proof. vm_compute. reflexivity. Qed.

Lemma compile_pattern3 : Re.compile pattern3 = Some (field_regex ind2 ind0).
Proof. vm_compute. reflexivity. Qed.

Lemma parse_replacement1 :
  Re.parse_template (lit replacement1) = Some (merge_template ind2).
Proof. vm_compute. reflexivity. Qed.

Lemma parse_replacement2 :
  Re.parse_template (lit replacement2) = Some (merge_template ind2).
Proof. vm_compute. reflexivity. Qed.

Lemma parse_replacement3 :
  Re.parse_template (lit replacement3) = Some (merge_template ind0).
Proof. vm_compute. reflexivity. Qed.

Lemma sub_pattern1 s : Re.sub pattern1 replacement1 s = Some (sub1 s).
Proof.
  unfold Re.sub. rewrite compile_pattern1, parse_replacement1. reflexivity.
Qed.

Lemma sub_pattern2 s : Re.sub pattern2 replacement2 s = Some (sub2 s).
Proof.
  unfold Re.sub. rewrite compile_pattern2, parse_replacement2. reflexivity.
Qed.

Lemma sub_pattern3 s : Re.sub pattern3 replacement3 s = Some (sub3 s).
Proof.
  unfold Re.sub. rewrite compile_pattern3, parse_replacement3. reflexivity.
Qed.

(** The transformation never raises: it is the composition of the three
    substitutions. *)
Lemma transform_eq s : transform s = Some (sub3 (sub2 (sub1 s))).
Proof.
  unfold transform. rewrite sub_pattern1. cbn [mbind option_bind].
  rewrite sub_pattern2. cbn [mbind option_bind].
  rewrite sub_pattern3. reflexivity.
Qed.

(** ** The matcher on literals and on greedy sets *)

Section Engine.

Implicit Types (r : Re.regex) (s : text) (st : Re.mstate).

Lemma shift_0 st : shift 0 st = st.
Proof. destruct st. unfold shift. simpl. f_equal. lia. Qed.

Lemma shift_advance n st : shift n (Re.advance st) = shift (S n) st.
Proof. unfold shift, Re.advance. simpl. f_equal. lia. Qed.

Lemma shift_shift n m st : shift n (shift m st) = shift (m + n) st.
Proof. unfold shift. simpl. f_equal. lia. Qed.

(** A run of literal characters consumes exactly that text. *)
Lemma run_chars l r s st st' :
  Re.run (map Re.Chr l ++ r) s st = Some st' ↔
  ∃ s', s = l ++ s' ∧ Re.run r s' (shift (length l) st) = Some st'.
Proof.
  revert s st. induction l as [|c l IH]; intros s st; simpl.
  - rewrite shift_0. split.
    + intros H. exists s. auto.
    + intros (s' & -> & H). exact H.
  - destruct s as [|x s].
    + split; [discriminate|]. intros (s' & Heq & _). discriminate.
    + case_bool_decide as Hx.
      * subst x. rewrite IH. rewrite shift_advance. split.
        -- intros (s' & -> & H). exists s'. auto.
        -- intros (s' & Heq & H). injection Heq as ->. exists s'. auto.
      * split; [discriminate|]. intros (s' & Heq & _). congruence.
Qed.

(** A greedy set followed by a literal outside the set cannot give back
    characters: it matches a non-empty run of set members, and any such
    run followed by a match of the rest is found. *)
Lemma plus_greedy_spec (f : ascii → bool) c
    (k : text → Re.mstate → option Re.mstate) s st st' :
  f c = false →
  (∀ s st m, k s st = Some m → ∃ s', s = c :: s') →
  Re.plus_greedy f k s st = Some st' ↔
  ∃ a b, s = a ++ b ∧ a ≠ [] ∧ forallb f a = true ∧
         k b (shift (length a) st) = Some st'.
Proof.
  intros Hc Hk. split.
  - revert st. induction s as [|x s IH]; intros st; simpl; [discriminate|].
    destruct (f x) eqn:Hx; [|discriminate].
    destruct (Re.plus_greedy f k s (Re.advance st)) as [m|] eqn:Hp.
    + intros [= ->]. apply IH in Hp as (a & b & -> & Ha & Hf & Hr).
      exists (x :: a), b. simpl. rewrite Hx, Hf.
      rewrite shift_advance in Hr. auto.
    + intros Hr. exists [x], s. simpl. rewrite Hx.
      rewrite <- shift_advance, shift_0. auto.
  - intros (a & b & -> & Ha & Hf & Hr). revert st Hr.
    induction a as [|x a IH]; [done|]. intros st Hr.
    simpl in Hf. apply andb_true_iff in Hf as [Hx Hf].
    cbn [app Re.plus_greedy]. rewrite Hx.
    destruct a as [|y a].
    + cbn [app length] in *. rewrite <- shift_advance, shift_0 in Hr.
      destruct (Hk _ _ _ Hr) as [b' ->].
      cbn [Re.plus_greedy]. rewrite Hc. exact Hr.
    + rewrite (IH ltac:(done) Hf (Re.advance st)); [done|].
      rewrite shift_advance. exact Hr.
Qed.

Lemma run_chr_head c r s st m :
  Re.run (Re.Chr c :: r) s st = Some m → ∃ s', s = c :: s'.
Proof.
  simpl. destruct s as [|x s]; [discriminate|].
  case_bool_decide; [|discriminate]. subst. eauto.
Qed.

Lemma run_chars_end l s st st' :
  Re.run (map Re.Chr l) s st = Some st' ↔
  ∃ s', s = l ++ s' ∧ st' = shift (length l) st.
Proof.
  rewrite <- (app_nil_r (map Re.Chr l)), run_chars. simpl.
  split; intros (s' & -> & H); exists s'; split; congruence.
Qed.

Lemma run_plus neg items r s st :
  Re.run (Re.PlusSet neg items :: r) s st =
  Re.plus_greedy (Re.in_set neg items) (Re.run r) s st.
Proof. reflexivity. Qed.

Lemma run_gopen r s st :
  Re.run (Re.GroupOpen :: r) s st =
  Re.run r s (Re.MState (Re.pos st) (Re.pos st) (Re.g1 st)).
Proof. reflexivity. Qed.

Lemma run_gclose r s st :
  Re.run (Re.GroupClose :: r) s st =
  Re.run r s (Re.MState (Re.pos st) (Re.gopen st) (Some (Re.gopen st, Re.pos st))).
Proof. reflexivity. Qed.

Lemma run_chr c r s st :
  Re.run (Re.Chr c :: r) (c :: s) st = Re.run r s (Re.advance st).
Proof. simpl. rewrite bool_decide_eq_true_2; reflexivity. Qed.

(** What a match of the field pattern looks like, and what it reports. *)
Lemma match_field ind ind' s m :
  Re.match_at (field_regex ind ind') s = Some m ↔
  ∃ name value rest,
    name ≠ [] ∧ forallb ident_char name = true ∧
    value ≠ [] ∧ forallb value_char value = true ∧
    s = (ind ++ name ++ lit ": " ++ value ++ [","]) ++ spread_tail ind ind' ++ rest ∧
    m = Re.MState
          (length (ind ++ name ++ lit ": " ++ value ++ [","])
           + length (spread_tail ind ind'))
          0 (Some (0, length (ind ++ name ++ lit ": " ++ value ++ [","]))).
Proof.
  unfold Re.match_at, field_regex. rewrite run_gopen.
  rewrite run_chars.
  split.
  - intros (s1 & -> & H). rewrite run_plus in H.
    apply (plus_greedy_spec _ ":") in H as (name & s2 & -> & Hn & Hnf & H);
      [|reflexivity|apply run_chr_head].
    change (Re.Chr ":" :: Re.Chr " " :: ?r) with (map Re.Chr (lit ": ") ++ r) in H.
    apply run_chars in H as (s3 & -> & H). rewrite run_plus in H.
    apply (plus_greedy_spec _ ",") in H as (value & s4 & -> & Hv & Hvf & H);
      [|reflexivity|apply run_chr_head].
    destruct (run_chr_head _ _ _ _ _ H) as [s5 ->].
    rewrite run_chr, run_gclose in H.
    apply run_chars_end in H as (rest & -> & ->).
    exists name, value, rest. repeat split; auto.
    + rewrite <- !app_assoc. reflexivity.
    + unfold shift, Re.advance. cbn [Re.pos Re.gopen Re.g1].
      rewrite !length_app. cbn [length lit list_ascii_of_string]. f_equal; [lia|].
      do 2 f_equal. lia.
  - intros (name & value & rest & Hn & Hnf & Hv & Hvf & -> & ->).
    exists (name ++ lit ": " ++ value ++ [","] ++ spread_tail ind ind' ++ rest).
    split; [rewrite <- !app_assoc; reflexivity|]. rewrite run_plus.
    apply (plus_greedy_spec _ ":"); [reflexivity|apply run_chr_head|].
    exists name, (lit ": " ++ value ++ [","] ++ spread_tail ind ind' ++ rest).
    repeat split; auto.
    change (Re.Chr ":" :: Re.Chr " " :: ?r) with (map Re.Chr (lit ": ") ++ r).
    apply run_chars. eexists. split; [reflexivity|]. rewrite run_plus.
    apply (plus_greedy_spec _ ","); [reflexivity|apply run_chr_head|].
    exists value, ([","] ++ spread_tail ind ind' ++ rest).
    repeat split; auto.
    cbn [app]. rewrite run_chr, run_gclose.
    apply run_chars_end. exists rest. split; [reflexivity|].
    unfold shift, Re.advance. cbn [Re.pos Re.gopen Re.g1].
    rewrite !length_app. cbn [length lit list_ascii_of_string]. f_equal; [lia|].
    do 2 f_equal. lia.
Qed.

End Engine.

(** ** The scan of [re.sub], one step at a time *)

Section Scan.

Implicit Types (r : Re.regex) (t : Re.template) (s : text).

Lemma sub_from_skip r t k s :
  k ≤ length s → Re.sub_from r t k s = Re.sub_from r t 0 (drop k s).
Proof.
  revert k. induction s as [|c s IH]; intros k Hk.
  - simpl in Hk. replace k with 0 by lia. reflexivity.
  - destruct k as [|k]; [reflexivity|]. simpl in Hk.
    cbn [Re.sub_from drop]. apply IH. lia.
Qed.

Lemma sub_from_match r t s m :
  Re.match_at r s = Some m → 0 < Re.pos m → Re.pos m ≤ length s →
  Re.sub_from r t 0 s = Re.expand t s m ++ Re.sub_from r t 0 (drop (Re.pos m) s).
Proof.
  intros Hm Hpos Hlen. destruct s as [|c s]; [simpl in Hlen; lia|].
  cbn [Re.sub_from]. rewrite Hm.
  destruct (Re.pos m) as [|k]; [lia|].
  cbn [drop]. rewrite sub_from_skip; [reflexivity|]. simpl in Hlen. lia.
Qed.

Lemma sub_from_miss r t c s :
  Re.match_at r (c :: s) = None →
  Re.sub_from r t 0 (c :: s) = c :: Re.sub_from r t 0 s.
Proof. intros Hm. cbn [Re.sub_from]. rewrite Hm. reflexivity. Qed.

Lemma expand_chars (l : text) s m :
  Re.expand (map Re.TChr l) s m = l.
Proof.
  unfold Re.expand. induction l as [|c l IH]; simpl; [reflexivity|].
  f_equal. exact IH.
Qed.

Lemma expand_merge ind' s m :
  Re.expand (merge_template ind') s m = Re.group1 s m ++ merge_tail ind'.
Proof.
  unfold merge_template. change (Re.expand (?x :: ?l) s m)
    with (Re.group1 s m ++ Re.expand l s m).
  rewrite expand_chars. reflexivity.
Qed.

End Scan.

(** ** Field lines *)

Section Fields.

Variable ind : text.
Hypothesis ind_no_comma : "," ∉ ind.
Hypothesis ind_no_nl : nl ∉ ind.

Lemma ident_char_not_comma c : ident_char c = true → c ≠ ",".
Proof. intros H ->. vm_compute in H. discriminate. Qed.

Lemma ident_char_not_nl c : ident_char c = true → c ≠ nl.
Proof. intros H ->. vm_compute in H. discriminate. Qed.

Lemma value_char_spec c : value_char c = true ↔ c ≠ "," ∧ c ≠ nl.
Proof.
  unfold value_char, Re.in_set. cbn [existsb Re.in_item xorb].
  do 2 case_bool_decide; simpl; split; try done; intros []; done.
Qed.

Lemma forallb_not_in (f : ascii → bool) (l : text) c :
  forallb f l = true → f c = false → c ∉ l.
Proof.
  intros Hl Hc Hin. rewrite forallb_forall in Hl.
  apply list_elem_of_In, Hl in Hin. congruence.
Qed.

(** A field line is a body without comma or newline, then the comma. *)
Lemma is_field_body cap :
  is_field ind cap → ∃ body, cap = body ++ [","] ∧ ("," ∉ body) ∧ (nl ∉ body).
Proof.
  intros [name value Hn Hnf Hv Hvf].
  exists (ind ++ name ++ lit ": " ++ value).
  split; [rewrite <- !app_assoc; reflexivity|].
  assert (Hv1 : "," ∉ value).
  { eapply forallb_not_in; [exact Hvf|reflexivity]. }
  assert (Hv2 : nl ∉ value).
  { eapply forallb_not_in; [exact Hvf|reflexivity]. }
  assert (Hn1 : "," ∉ name).
  { eapply forallb_not_in; [exact Hnf|reflexivity]. }
  assert (Hn2 : nl ∉ name).
  { eapply forallb_not_in; [exact Hnf|reflexivity]. }
  rewrite !not_elem_of_app. repeat split; auto.
  - intros H. apply list_elem_of_In in H. simpl in H.
    destruct H as [H|[H|[]]]; discriminate.
  - intros H. apply list_elem_of_In in H. simpl in H.
    destruct H as [H|[H|[]]]; discriminate.
Qed.

(** It begins with the indentation and a name character. *)
Lemma is_field_head cap :
  is_field ind cap → ∃ c cap', cap = ind ++ c :: cap' ∧ ident_char c = true.
Proof.
  intros [name value Hn Hnf Hv Hvf].
  destruct name as [|c name]; [done|].
  simpl in Hnf. apply andb_true_iff in Hnf as [Hc _].
  exists c, (name ++ lit ": " ++ value ++ [","]). auto.
Qed.

End Fields.

(** ** One substitution of the field shape *)

Section Rule.

Variables ind ind' : text.

Local Abbreviation L := (spread_tail ind ind').
Local Abbreviation R := (merge_tail ind').
Local Abbreviation rw := (rewrite ind ind').

Lemma starts_match s :
  starts ind ind' s ↔ ∃ m, Re.match_at (field_regex ind ind') s = Some m.
Proof.
  split.
  - intros (cap & rest & [name value Hn Hnf Hv Hvf] & ->).
    eexists. apply match_field. exists name, value, rest. eauto 10.
  - intros [m Hm]. apply match_field in Hm
      as (name & value & rest & Hn & Hnf & Hv & Hvf & -> & _).
    eexists _, rest. split; [|reflexivity]. by constructor.
Qed.

Lemma not_starts_match s :
  ¬ starts ind ind' s ↔ Re.match_at (field_regex ind ind') s = None.
Proof.
  rewrite starts_match. destruct (Re.match_at _ s) as [m|].
  - split; [|done]. intros H. destruct H. eauto.
  - split; [done|]. intros _ [m H]. discriminate.
Qed.

Lemma starts_dec s : starts ind ind' s ∨ ¬ starts ind ind' s.
Proof.
  destruct (Re.match_at (field_regex ind ind') s) as [m|] eqn:Hm.
  - left. apply starts_match. eauto.
  - right. by apply not_starts_match.
Qed.

Lemma starts_nil : ¬ starts ind ind' [].
Proof.
  intros (cap & rest & [name value Hn Hnf Hv Hvf] & H).
  destruct ind, name; done.
Qed.

(** A match stays a match whatever is appended. *)
Lemma starts_app s x : starts ind ind' s → starts ind ind' (s ++ x).
Proof.
  intros (cap & rest & Hf & ->). exists cap, (rest ++ x).
  split; [done|]. by rewrite <- !app_assoc.
Qed.

Lemma rewrite_nil : rw [] = [].
Proof.
  unfold rewrite. cbn [Re.sub_from].
  destruct (Re.match_at _ []) as [m|] eqn:Hm; [|reflexivity].
  destruct starts_nil. apply starts_match. eauto.
Qed.

Lemma rewrite_match cap rest :
  is_field ind cap → rw (cap ++ L ++ rest) = cap ++ R ++ rw rest.
Proof.
  intros Hf.
  pose (m := Re.MState (length cap + length L) 0 (Some (0, length cap))).
  assert (Hm : Re.match_at (field_regex ind ind') (cap ++ L ++ rest) = Some m).
  { destruct Hf as [name value Hn Hnf Hv Hvf].
    apply match_field. exists name, value, rest. eauto 10. }
  unfold rewrite. rewrite (sub_from_match _ _ _ m Hm).
  - rewrite expand_merge. unfold Re.group1. cbn [m Re.g1 Re.pos].
    rewrite drop_0, Nat.sub_0_r, take_app_length.
    rewrite <- !app_assoc. do 2 f_equal.
    rewrite (app_assoc cap L rest), <- length_app, drop_app_length.
    reflexivity.
  - cbn [m Re.pos]. unfold spread_tail. simpl. lia.
  - cbn [m Re.pos]. rewrite !length_app. lia.
Qed.

Lemma rewrite_miss c s :
  ¬ starts ind ind' (c :: s) → rw (c :: s) = c :: rw s.
Proof.
  intros H. apply not_starts_match in H.
  unfold rewrite. by apply sub_from_miss.
Qed.

(** Induction along the scan: nothing left, a match at the head, or one
    character copied. *)
Lemma rewrite_ind (P : text → text → Prop) :
  P [] [] →
  (∀ cap rest, is_field ind cap → P rest (rw rest) →
     P (cap ++ L ++ rest) (cap ++ R ++ rw rest)) →
  (∀ c s, ¬ starts ind ind' (c :: s) → P s (rw s) → P (c :: s) (c :: rw s)) →
  ∀ s, P s (rw s).
Proof.
  intros Hnil Hmatch Hmiss s.
  induction s as [s IH] using (induction_ltof1 _ (@length ascii)).
  unfold ltof in IH.
  destruct s as [|c s]; [by rewrite rewrite_nil|].
  destruct (starts_dec (c :: s)) as [(cap & rest & Hf & Heq)|Hno].
  - rewrite Heq, (rewrite_match _ _ Hf). apply Hmatch; [done|].
    apply IH. rewrite Heq, !length_app. unfold spread_tail. simpl. lia.
  - rewrite (rewrite_miss _ _ Hno). apply Hmiss; [done|].
    apply IH. simpl. lia.
Qed.

(** Without a match anywhere the text is returned as it is. *)
Lemma rewrite_no_occurs s : ¬ occurs ind ind' s → rw s = s.
Proof.
  induction s as [|c s IH]; intros Hno; [apply rewrite_nil|].
  rewrite rewrite_miss.
  - f_equal. apply IH. intros (p & q & -> & Hq).
    apply Hno. exists (c :: p), q. done.
  - intros Hs. apply Hno. exists [], (c :: s). done.
Qed.

End Rule.

(** ** Texts that cannot take part in a match *)

Lemma clash_sound a b x y : clash a b = true → a ++ x ≠ b ++ y.
Proof.
  revert b. induction a as [|c a IH]; intros [|d b]; simpl; try discriminate.
  intros H Heq. injection Heq as -> Heq.
  rewrite bool_decide_eq_true_2 in H by reflexivity.
  simpl in H. by apply (IH b).
Qed.

Lemma head_block_sound jnd x y c z :
  head_block jnd x = true → ident_char c = true → x ++ y ≠ jnd ++ c :: z.
Proof.
  revert jnd. induction x as [|a x IH]; intros jnd; [simpl; discriminate|].
  destruct jnd as [|i jnd]; simpl.
  - intros Ha Hc Heq. injection Heq as -> _. rewrite Hc in Ha. discriminate.
  - case_bool_decide as Hi.
    + intros Hb Hc Heq. injection Heq as _ Heq. by apply (IH jnd).
    + intros _ _ Heq. injection Heq as -> _. done.
Qed.

Lemma tails1_elem (x l : text) : x ≠ [] → (∃ p, l = p ++ x) → x ∈ tails1 l.
Proof.
  intros Hx [p ->]. induction p as [|a p IH]; simpl.
  - destruct x; [done|]. simpl. left.
  - right. exact IH.
Qed.

(** If every non-empty suffix of [l] is blocking, no field line and so no
    match starts inside [l], whatever follows. *)
Lemma blocked_field ind (l x y cap z : text) :
  forallb (head_block ind) (tails1 l) = true →
  x ≠ [] → (∃ p, l = p ++ x) → is_field ind cap → x ++ y ≠ cap ++ z.
Proof.
  intros Hall Hx Hsuf Hf Heq.
  rewrite forallb_forall in Hall.
  assert (Hb : head_block ind x = true).
  { apply Hall, list_elem_of_In. by apply tails1_elem. }
  destruct (is_field_head _ _ Hf) as (c & cap' & -> & Hc).
  rewrite <- !app_assoc in Heq. cbn [app] in Heq.
  by eapply head_block_sound.
Qed.

Lemma blocked_suffix jnd jnd' (l x y : text) :
  forallb (head_block jnd) (tails1 l) = true →
  x ≠ [] → (∃ p, l = p ++ x) → ¬ starts jnd jnd' (x ++ y).
Proof.
  intros Hall Hx Hsuf (cap & rest & Hf & Heq).
  by eapply blocked_field in Heq.
Qed.

(** A non-empty suffix of a field line ends with its comma. *)
Lemma suffix_snoc (p k body : text) c :
  k ≠ [] → p ++ k = body ++ [c] → ∃ kb, k = kb ++ [c] ∧ body = p ++ kb.
Proof.
  intros Hk Heq. destruct k as [|z k _] using rev_ind; [done|].
  rewrite app_assoc in Heq. apply app_inj_tail in Heq as [<- <-]. eauto.
Qed.

(** ** Looking for pattern [j] in the output of substitution [i] *)

Section Cross.

Variables ind ind' jnd jnd' : text.

Local Abbreviation Li := (spread_tail ind ind').
Local Abbreviation Ri := (merge_tail ind').
Local Abbreviation Lj := (spread_tail jnd jnd').
Local Abbreviation rw := (rewrite ind ind').

Hypothesis ind_no_comma : "," ∉ ind.
Hypothesis ind_no_nl : nl ∉ ind.
Hypothesis jnd_no_comma : "," ∉ jnd.
Hypothesis jnd_no_nl : nl ∉ jnd.
Hypothesis Lj_no_comma : "," ∉ Lj.
Hypothesis Lj_clash_Ri : clash Lj Ri = true.
Hypothesis Ri_blocks : forallb (head_block jnd) (tails1 Ri) = true.

(** A comma-free text at the head of the output is at the head of the
    input: up to the first comma nothing changes. *)
Lemma prefix_rewrite_plain s w :
  "," ∉ w → w `prefix_of` rw s → w `prefix_of` s.
Proof.
  revert w. apply (rewrite_ind ind ind') with
    (P := λ s out, ∀ w, "," ∉ w → w `prefix_of` out → w `prefix_of` s); clear s.
  - done.
  - intros cap rest Hf _ w Hw [k Hk].
    destruct (is_field_body ind ind_no_comma ind_no_nl _ Hf)
      as (body & -> & Hb & _).
    rewrite <- !app_assoc in *. cbn [app] in Hk.
    symmetry in Hk. apply app_eq_inv in Hk as [(k' & -> & Hk)|(k' & -> & Hk)].
    + destruct k' as [|c k'].
      * rewrite app_nil_r. by apply prefix_app_r.
      * injection Hk as <- _. destruct Hw. set_solver.
    + eexists. rewrite <- !app_assoc. reflexivity.
  - intros c s _ IH w Hw Hp. destruct w as [|x w]; [apply prefix_nil|].
    pose proof (prefix_cons_inv_1 _ _ _ _ Hp) as ->.
    apply prefix_cons, IH.
    + set_solver.
    + by eapply prefix_cons_inv_2.
Qed.

(** The same for a text with one comma that is followed by the tail that
    pattern [j] looks for. *)
Lemma prefix_rewrite_tail s w :
  "," ∉ w → w ++ "," :: Lj `prefix_of` rw s → w ++ "," :: Lj `prefix_of` s.
Proof.
  revert w. apply (rewrite_ind ind ind') with
    (P := λ s out, ∀ w, "," ∉ w →
       w ++ "," :: Lj `prefix_of` out → w ++ "," :: Lj `prefix_of` s); clear s.
  - intros w _ [k Hk]. destruct w; discriminate.
  - intros cap rest Hf _ w Hw [k Hk].
    destruct (is_field_body ind ind_no_comma ind_no_nl _ Hf)
      as (body & -> & Hb & _).
    rewrite <- !app_assoc in Hk. cbn [app] in Hk.
    apply not_elem_of_app_cons_inv_l in Hk as (_ & _ & Hk); [|done..].
    symmetry in Hk. by apply clash_sound in Hk.
  - intros c s _ IH w Hw Hp. destruct w as [|x w].
    + cbn [app] in *. pose proof (prefix_cons_inv_1 _ _ _ _ Hp) as <-.
      apply prefix_cons, prefix_rewrite_plain; [done|].
      by eapply prefix_cons_inv_2.
    + cbn [app] in *. pose proof (prefix_cons_inv_1 _ _ _ _ Hp) as ->.
      apply prefix_cons, IH; [set_solver|]. by eapply prefix_cons_inv_2.
Qed.

(** Head stability: a match of [j] at the head of the output was already
    at the head of the input. *)
Lemma starts_rewrite s : starts jnd jnd' (rw s) → starts jnd jnd' s.
Proof.
  intros (cap & rest & Hf & Heq).
  destruct (is_field_body jnd jnd_no_comma jnd_no_nl _ Hf)
    as (body & -> & Hb & _).
  assert (Hp : body ++ "," :: Lj `prefix_of` s).
  { apply prefix_rewrite_tail; [done|]. exists rest. rewrite Heq.
    by rewrite <- !app_assoc. }
  destruct Hp as [k ->]. exists (body ++ [","]), k. split; [done|].
  by rewrite <- !app_assoc.
Qed.

(** No match of [j] starts inside a rewritten block. *)
Lemma rewritten_block_inert cap p x y :
  is_field ind cap → cap ++ Ri = p ++ x → x ≠ [] → ¬ starts jnd jnd' (x ++ y).
Proof.
  intros Hf Heq Hx.
  apply app_eq_inv in Heq as [(k & Hcap & ->)|(k & -> & HR)].
  - destruct k as [|c0 k0].
    { cbn [app]. apply (blocked_suffix _ _ Ri); [done|discriminate|by exists []]. }
    destruct (is_field_body ind ind_no_comma ind_no_nl _ Hf)
      as (body & -> & Hb & _).
    symmetry in Hcap. apply suffix_snoc in Hcap as (kb & -> & ->); [|done].
    intros (capj & rest & Hfj & Heq).
    destruct (is_field_body jnd jnd_no_comma jnd_no_nl _ Hfj)
      as (bj & -> & Hbj & _).
    rewrite <- !app_assoc in Heq. cbn [app] in Heq.
    apply not_elem_of_app_cons_inv_l in Heq as (_ & _ & Heq);
      [|done|set_solver].
    symmetry in Heq. by apply clash_sound in Heq.
  - apply (blocked_suffix _ _ Ri); [done..|by exists k].
Qed.

(** Provided every match of [j] in the input is also a match of [i], the
    output of substitution [i] has no match of [j] left. *)
Lemma rewrite_clears s :
  (∀ p q, s = p ++ q → starts jnd jnd' q → starts ind ind' q) →
  ¬ occurs jnd jnd' (rw s).
Proof.
  intros Hs (p & q & Heq & Hq). revert Hs p q Heq Hq.
  apply (rewrite_ind ind ind') with
    (P := λ s out,
       (∀ p q, s = p ++ q → starts jnd jnd' q → starts ind ind' q) →
       ∀ p q, out = p ++ q → starts jnd jnd' q → False); clear s.
  - intros _ p q Heq Hq. symmetry in Heq. apply app_eq_nil in Heq as [_ ->].
    by apply starts_nil in Hq.
  - intros cap rest Hf IH Hs p q Heq Hq.
    assert (Hrest : ∀ p q, rest = p ++ q → starts jnd jnd' q → starts ind ind' q).
    { intros p' q' -> Hq'. apply (Hs (cap ++ Li ++ p')); [|done].
      by rewrite <- !app_assoc. }
    rewrite app_assoc in Heq.
    apply app_eq_inv in Heq as [(k & Hk & ->)|(k & -> & Hk)].
    + destruct k as [|c k].
      * cbn [app] in Hq. by apply (IH Hrest [] (rw rest)).
      * by eapply rewritten_block_inert in Hq.
    + by apply (IH Hrest k q).
  - intros c s Hno IH Hs p q Heq Hq. destruct p as [|x p].
    + cbn [app] in Heq. subst q. rewrite <- (rewrite_miss _ _ _ _ Hno) in Hq.
      apply starts_rewrite in Hq. apply Hno, (Hs []); done.
    + injection Heq as <- Heq. apply (IH (λ p' q' Hpq, Hs (c :: p') q' (f_equal (cons c) Hpq)) p q); done.
Qed.

End Cross.

(** ** The three patterns of the script *)

Lemma ind4_no_comma : "," ∉ ind4.
Proof. text_fact. Qed.
Lemma ind4_no_nl : nl ∉ ind4.
Proof. text_fact. Qed.
Lemma ind2_no_comma : "," ∉ ind2.
Proof. text_fact. Qed.
Lemma ind2_no_nl : nl ∉ ind2.
Proof. text_fact. Qed.
Lemma tail1_no_comma : "," ∉ spread_tail ind4 ind2.
Proof. text_fact. Qed.
Lemma tail3_no_comma : "," ∉ spread_tail ind2 ind0.
Proof. text_fact. Qed.

(** Substitution 1 leaves no match of pattern 1. *)
Lemma sub1_clears1 s : ¬ occurs ind4 ind2 (sub1 s).
Proof.
  apply rewrite_clears; auto using ind4_no_comma, ind4_no_nl, tail1_no_comma.
Qed.

(** Substitution 3 leaves no match of pattern 3 ... *)
Lemma sub3_clears3 s : ¬ occurs ind2 ind0 (sub3 s).
Proof.
  apply rewrite_clears; auto using ind2_no_comma, ind2_no_nl, tail3_no_comma.
Qed.

(** ... and introduces no match of pattern 1. *)
Lemma sub3_keeps1 s : ¬ occurs ind4 ind2 s → ¬ occurs ind4 ind2 (sub3 s).
Proof.
  intros Hno.
  apply rewrite_clears;
    auto using ind2_no_comma, ind2_no_nl, ind4_no_comma, ind4_no_nl, tail1_no_comma.
  intros p q -> Hq. destruct Hno. by exists p, q.
Qed.

(** The captured text of pattern 2, with its comma, is a field line. *)
Lemma field2_is_field : is_field ind4 (field2 ++ [","]).
Proof.
  apply (IsField ind4 (lit "response_format") (lit "ResponseFormatSchema")); done.
Qed.

(** Whatever pattern 2 matches, pattern 1 matches at the same place. *)
Lemma match2_starts1 s m :
  Re.match_at regex2 s = Some m → starts ind4 ind2 s.
Proof.
  unfold Re.match_at, regex2. rewrite run_gopen. intros H.
  apply run_chars in H as (s1 & -> & H). rewrite run_gclose in H.
  destruct (run_chr_head _ _ _ _ _ H) as [s2 ->]. rewrite run_chr in H.
  apply run_chars_end in H as (rest & -> & _).
  exists (field2 ++ [","]), rest. split; [apply field2_is_field|].
  by rewrite <- !app_assoc.
Qed.

Lemma sub_from_no_match r t s :
  (∀ p q, s = p ++ q → Re.match_at r q = None) → Re.sub_from r t 0 s = s.
Proof.
  induction s as [|c s IH]; intros Hno.
  - cbn [Re.sub_from]. by rewrite (Hno [] []).
  - rewrite sub_from_miss; [|by apply (Hno [])].
    f_equal. apply IH. intros p q ->. by apply (Hno (c :: p)).
Qed.

(** Hence substitution 2 does nothing where pattern 1 has no match. *)
Lemma sub2_no_occurs s : ¬ occurs ind4 ind2 s → sub2 s = s.
Proof.
  intros Hno. apply sub_from_no_match. intros p q -> .
  destruct (Re.match_at regex2 q) as [m|] eqn:Hm; [|done].
  destruct Hno. exists p, q. split; [done|]. by eapply match2_starts1.
Qed.

Lemma search_false r s :
  Re.search r s = false ↔ ∀ p q, s = p ++ q → Re.match_at r q = None.
Proof.
  induction s as [|c s IH]; cbn [Re.search].
  - destruct (Re.match_at r []) eqn:Hm.
    + split; [done|]. intros H. by rewrite (H [] []) in Hm.
    + split; [|done]. intros _ p q Heq.
      symmetry in Heq. apply app_eq_nil in Heq as [_ ->]. done.
  - destruct (Re.match_at r (c :: s)) eqn:Hm.
    + split; [done|]. intros H. by rewrite (H [] (c :: s)) in Hm.
    + rewrite IH. split.
      * intros H [|x p] q Heq; simpl in Heq; [by subst|].
        injection Heq as -> ->. by apply (H p).
      * intros H p q ->. by apply (H (c :: p)).
Qed.

Lemma search_field_false ind ind' s :
  Re.search (field_regex ind ind') s = false ↔ ¬ occurs ind ind' s.
Proof.
  rewrite search_false. split.
  - intros H (p & q & Heq & Hq). apply starts_match in Hq as [m Hm].
    by rewrite (H p q Heq) in Hm.
  - intros H p q Heq. apply not_starts_match. intros Hq. apply H. by exists p, q.
Qed.

(** The output of the whole transformation has no match of pattern 1 or 3,
    so each of the three substitutions returns it unchanged. *)
Lemma pipeline_clear s :
  let t := sub3 (sub2 (sub1 s)) in
  ¬ occurs ind4 ind2 t ∧ ¬ occurs ind2 ind0 t.
Proof.
  split.
  - apply sub3_keeps1. rewrite sub2_no_occurs; apply sub1_clears1.
  - apply sub3_clears3.
Qed.

Lemma pipeline_fixpoint t :
  ¬ occurs ind4 ind2 t → ¬ occurs ind2 ind0 t → sub3 (sub2 (sub1 t)) = t.
Proof.
  intros H1 H3. unfold sub1. rewrite (rewrite_no_occurs _ _ _ H1).
  rewrite (sub2_no_occurs _ H1). by apply rewrite_no_occurs.
Qed.

(** ** Substitution is local to the block it rewrites *)

Lemma occurs_comma ind ind' s : occurs ind ind' s → "," ∈ s.
Proof.
  intros (p & q & -> & cap & rest & [name value _ _ _ _] & ->).
  rewrite <- !app_assoc. set_solver.
Qed.

Lemma rewrite_no_comma ind ind' s : "," ∉ s → rewrite ind ind' s = s.
Proof.
  intros H. apply rewrite_no_occurs. intros Ho. by apply occurs_comma in Ho.
Qed.

Section Block.

Variables ind ind' : text.

Local Abbreviation L := (spread_tail ind ind').
Local Abbreviation R := (merge_tail ind').
Local Abbreviation rw := (rewrite ind ind').

Hypothesis ind_no_comma : "," ∉ ind.
Hypothesis ind_no_nl : nl ∉ ind.
Hypothesis L_blocks : forallb (head_block ind) (tails1 L) = true.

(** A block of the targeted form is rewritten where it stands, and the
    text before and after it is rewritten as if it stood alone. *)
Lemma rewrite_block pre cap post :
  is_field ind cap →
  rw (pre ++ cap ++ L ++ post) = rw pre ++ cap ++ R ++ rw post.
Proof.
  intros Hf. induction pre as [pre IH] using (induction_ltof1 _ (@length ascii)).
  unfold ltof in IH. destruct pre as [|c pre'].
  { cbn [app]. by rewrite rewrite_match, rewrite_nil. }
  destruct (starts_dec ind ind' ((c :: pre') ++ cap ++ L ++ post))
    as [(cap1 & rest1 & Hf1 & Heq)|Hno].
  - destruct (is_field_body ind ind_no_comma ind_no_nl _ Hf)
      as (body & Hcap & Hb & _).
    destruct (is_field_body ind ind_no_comma ind_no_nl _ Hf1)
      as (b1 & Hcap1 & Hb1 & _).
    destruct (decide ("," ∈ c :: pre')) as [Hin|Hnin].
    + apply list_elem_of_split_l in Hin as (a & b & Hpre & Ha).
      rewrite Hpre, Hcap1 in Heq. rewrite <- !app_assoc in Heq. cbn [app] in Heq.
      apply not_elem_of_app_cons_inv_l in Heq as (-> & _ & Heq); [|done..].
      assert (Hk : ∃ k, b = L ++ k ∧ rest1 = k ++ cap ++ L ++ post).
      { apply app_eq_inv in Heq as [(k & -> & ->)|(k & HL & Hk)]; [by eauto|].
        destruct k as [|x k].
        - rewrite app_nil_r in HL. subst b. exists []. by rewrite app_nil_r.
        - exfalso. symmetry in Hk. revert Hk.
          apply (blocked_field ind L); [done|done|by exists b|done]. }
      destruct Hk as (k & -> & ->).
      rewrite Hpre.
      replace (b1 ++ "," :: L ++ k) with (cap1 ++ L ++ k)
        by (rewrite Hcap1, <- !app_assoc; done).
      rewrite <- !app_assoc. rewrite !rewrite_match by done.
      rewrite IH; [by rewrite <- !app_assoc|].
      rewrite Hpre, length_app. cbn [length]. rewrite length_app. lia.
    + rewrite Hcap, Hcap1 in Heq. rewrite <- !app_assoc in Heq.
      cbn [app] in Heq. rewrite !app_comm_cons, app_assoc in Heq.
      apply not_elem_of_app_cons_inv_l in Heq as (Hb1eq & _ & Heq);
        [|done|by apply not_elem_of_app].
      apply app_inv_head in Heq. subst rest1.
      rewrite (rewrite_no_comma _ _ (c :: pre') Hnin).
      replace ((c :: pre') ++ cap ++ L ++ post) with (cap1 ++ L ++ post).
      * rewrite rewrite_match by done. rewrite Hcap1, Hcap, <- Hb1eq.
        by rewrite <- !app_assoc.
      * rewrite Hcap1, Hcap, <- Hb1eq. by rewrite <- !app_assoc.
  - cbn [app] in *. rewrite rewrite_miss by done.
    rewrite IH by (simpl; lia).
    rewrite (rewrite_miss _ _ c pre'); [done|].
    intros Hs. apply Hno. by apply (starts_app _ _ (c :: pre')).
Qed.

End Block.

Section Inert.

(** Substitution [j] run over text in which substitution [i] has already
    rewritten a block. *)
Variables ind ind' jnd jnd' : text.

Local Abbreviation Ri := (merge_tail ind').
Local Abbreviation Lj := (spread_tail jnd jnd').
Local Abbreviation Rj := (merge_tail jnd').
Local Abbreviation rwj := (rewrite jnd jnd').

Hypothesis ind_no_comma : "," ∉ ind.
Hypothesis ind_no_nl : nl ∉ ind.
Hypothesis jnd_no_comma : "," ∉ jnd.
Hypothesis jnd_no_nl : nl ∉ jnd.
Hypothesis Lj_no_comma : "," ∉ Lj.
Hypothesis Lj_clash_Ri : clash Lj Ri = true.
Hypothesis Ri_blocks : forallb (head_block jnd) (tails1 Ri) = true.
Hypothesis Lj_blocks : forallb (head_block ind) (tails1 Lj) = true.

Lemma rewrite_inert_prefix (M B : text) :
  (∀ p x, M = p ++ x → x ≠ [] → ¬ starts jnd jnd' (x ++ B)) →
  rwj (M ++ B) = M ++ rwj B.
Proof.
  induction M as [|c M IH]; intros Hno; [done|].
  cbn [app]. rewrite rewrite_miss.
  - f_equal. apply IH. intros p x -> Hx. by apply (Hno (c :: p)).
  - by apply (Hno [] (c :: M)).
Qed.

Lemma rewrite_inert_block A cap B :
  is_field ind cap →
  rwj (A ++ cap ++ Ri ++ B) = rwj A ++ cap ++ Ri ++ rwj B.
Proof.
  intros Hf. induction A as [A IH] using (induction_ltof1 _ (@length ascii)).
  unfold ltof in IH. destruct A as [|c A'].
  { cbn [app]. rewrite rewrite_nil. cbn [app].
    rewrite app_assoc, rewrite_inert_prefix; [by rewrite <- app_assoc|].
    intros p x Heq Hx.
    by apply (rewritten_block_inert ind ind' jnd jnd') with (cap := cap) (p := p). }
  destruct (starts_dec jnd jnd' ((c :: A') ++ cap ++ Ri ++ B))
    as [(capj & restj & Hfj & Heq)|Hno].
  - destruct (is_field_body ind ind_no_comma ind_no_nl _ Hf)
      as (body & Hcap & Hb & _).
    destruct (is_field_body jnd jnd_no_comma jnd_no_nl _ Hfj)
      as (bj & Hcapj & Hbj & _).
    destruct (decide ("," ∈ c :: A')) as [Hin|Hnin].
    + apply list_elem_of_split_l in Hin as (a & b & HA & Ha).
      rewrite HA, Hcapj in Heq. rewrite <- !app_assoc in Heq. cbn [app] in Heq.
      apply not_elem_of_app_cons_inv_l in Heq as (-> & _ & Heq); [|done..].
      assert (Hk : ∃ k, b = Lj ++ k ∧ restj = k ++ cap ++ Ri ++ B).
      { apply app_eq_inv in Heq as [(k & -> & ->)|(k & HL & Hk)]; [by eauto|].
        destruct k as [|x k].
        - rewrite app_nil_r in HL. subst b. exists []. by rewrite app_nil_r.
        - exfalso. symmetry in Hk. revert Hk.
          apply (blocked_field ind Lj); [done|done|by exists b|done]. }
      destruct Hk as (k & -> & ->).
      rewrite HA.
      replace (bj ++ "," :: Lj ++ k) with (capj ++ Lj ++ k)
        by (rewrite Hcapj, <- !app_assoc; done).
      rewrite <- !app_assoc. rewrite !rewrite_match by done.
      rewrite IH; [by rewrite <- !app_assoc|].
      rewrite HA, length_app. cbn [length]. rewrite length_app. lia.
    + rewrite Hcap, Hcapj in Heq. rewrite <- !app_assoc in Heq.
      cbn [app] in Heq. rewrite !app_comm_cons, app_assoc in Heq.
      apply not_elem_of_app_cons_inv_l in Heq as (_ & _ & Heq);
        [|done|by apply not_elem_of_app].
      symmetry in Heq. by apply clash_sound in Heq.
  - cbn [app] in *. rewrite rewrite_miss by done.
    rewrite IH by (simpl; lia).
    rewrite (rewrite_miss _ _ c A'); [done|].
    intros Hs. apply Hno. by apply (starts_app _ _ (c :: A')).
Qed.

End Inert.

(** ** Occurrences of a token *)

Section Tokens.

Implicit Types (p s a b : text).

Lemma starts_with_spec p s : starts_with p s = true ↔ ∃ b, s = p ++ b.
Proof.
  revert s. induction p as [|c p IH]; intros s; simpl.
  - split; [eauto|done].
  - destruct s as [|x s].
    + split; [done|]. intros [b Hb]. discriminate.
    + rewrite andb_true_iff, bool_decide_eq_true, IH. split.
      * intros (-> & b & ->). eauto.
      * intros (b & [= -> ->]). eauto.
Qed.

Lemma contains_spec p s : contains p s = true ↔ ∃ a b, s = a ++ p ++ b.
Proof.
  induction s as [|x s IH]; cbn [contains]; rewrite orb_true_iff, starts_with_spec.
  - split.
    + intros [[b ->]|?]; [|done]. by exists [], b.
    + intros (a & b & Heq). left. destruct a; [by exists b|discriminate].
  - rewrite IH. split.
    + intros [[b ->]|(a & b & ->)]; [by exists [], b|by exists (x :: a), b].
    + intros ([|y a] & b & Heq); [left; by exists b|].
      injection Heq as -> ->. right. eauto.
Qed.

Lemma contains_false p s :
  contains p s = false ↔ ∀ a b, s ≠ a ++ p ++ b.
Proof.
  rewrite <- not_true_iff_false, contains_spec. split.
  - intros H a b Heq. apply H. eauto.
  - intros H (a & b & Heq). by apply (H a b).
Qed.

(** Absence is inherited by every piece of the text. *)
Lemma contains_false_piece p a s b :
  contains p (a ++ s ++ b) = false → contains p s = false.
Proof.
  rewrite !contains_false. intros H x y ->. apply (H (a ++ x) (y ++ b)).
  by rewrite <- !app_assoc.
Qed.

Lemma occurrences_0 p s : occurrences p s = 0 ↔ contains p s = false.
Proof.
  induction s as [|x s IH]; cbn [occurrences contains].
  - destruct (starts_with p []); simpl; split; (done || lia).
  - destruct (starts_with p (x :: s)); simpl; [split; (done || lia)|].
    exact IH.
Qed.

Lemma starts_with_app p s b :
  starts_with p s = true → starts_with p (s ++ b) = true.
Proof.
  rewrite !starts_with_spec. intros [k ->]. exists (k ++ b).
  by rewrite <- app_assoc.
Qed.

Lemma occurrences_app p a b :
  p ≠ [] → occurrences p a + occurrences p b ≤ occurrences p (a ++ b).
Proof.
  intros Hp. induction a as [|x a IH].
  - destruct p; [done|]. cbn [app]. change (occurrences (a :: p) []) with 0. lia.
  - cbn [app occurrences].
    destruct (starts_with p (x :: a)) eqn:Hs.
    + apply (starts_with_app _ _ b) in Hs. cbn [app] in Hs. rewrite Hs. lia.
    + destruct (starts_with p (x :: a ++ b)); lia.
Qed.

(** Around one occurrence, the others add up. *)
Lemma occurrences_around p a b :
  p ≠ [] → occurrences p a + 1 + occurrences p b ≤ occurrences p (a ++ p ++ b).
Proof.
  intros Hp.
  pose proof (occurrences_app p a (p ++ b) Hp) as H1.
  assert (H2 : 1 + occurrences p b ≤ occurrences p (p ++ b)); [|lia].
  destruct p as [|c p]; [done|]. cbn [app occurrences].
  replace (starts_with (c :: p) (c :: p ++ b)) with true.
  - pose proof (occurrences_app (c :: p) p b ltac:(done)). lia.
  - symmetry. apply starts_with_spec. by exists b.
Qed.

(** With a single occurrence, its place is determined. *)
Lemma occurrences_unique p s a b a' b' :
  occurrences p s = 1 → s = a ++ p ++ b → s = a' ++ p ++ b' → a = a'.
Proof.
  intros H1 Ha Ha'. destruct p as [|c p].
  { assert (Hlen : occurrences [] s = S (length s)).
    { clear. induction s as [|x s IH]; simpl; [done|]. by rewrite IH. }
    rewrite Hlen in H1. destruct s; [|simpl in H1; lia].
    destruct a, a'; done. }
  revert a a' H1 Ha Ha'. induction s as [|x s IH]; intros a a' H1 Ha Ha'.
  { destruct a; discriminate. }
  cbn [occurrences] in H1.
  assert (Hge : ∀ a b, s = a ++ (c :: p) ++ b → 1 ≤ occurrences (c :: p) s).
  { intros a0 b0 ->.
    pose proof (occurrences_around (c :: p) a0 b0 ltac:(done)). lia. }
  destruct a as [|y a], a' as [|y' a']; [done| | |].
  - exfalso. cbn [app] in Ha, Ha'. injection Ha' as -> Ha'.
    apply Hge in Ha'.
    replace (starts_with (c :: p) (y' :: s)) with true in H1; [lia|].
    symmetry. apply starts_with_spec. eauto.
  - exfalso. cbn [app] in Ha, Ha'. injection Ha as -> Ha.
    apply Hge in Ha.
    replace (starts_with (c :: p) (y :: s)) with true in H1; [lia|].
    symmetry. apply starts_with_spec. eauto.
  - cbn [app] in Ha, Ha'. injection Ha as -> Ha. injection Ha' as -> Ha'.
    f_equal. apply (IH a a'); [|done..].
    pose proof (Hge _ _ Ha). destruct (starts_with (c :: p) (y' :: s)); lia.
Qed.

(** A character foreign to the token separates the search. *)
Lemma contains_sep p a c b :
  c ∉ p → contains p (a ++ c :: b) = true →
  contains p a = true ∨ contains p b = true.
Proof.
  intros Hc. rewrite !contains_spec. intros (x & y & Heq).
  rewrite app_assoc in Heq.
  apply app_eq_inv in Heq as [(k & -> & Hk)|(k & Hxp & Hcb)].
  { left. exists x, k. by rewrite <- app_assoc. }
  destruct k as [|z k].
  { rewrite app_nil_r in Hxp. subst a. left. exists x, []. by rewrite app_nil_r. }
  injection Hcb as <- ->.
  apply app_eq_inv in Hxp as [(k1 & -> & Hk1)|(k1 & -> & ->)].
  - destruct k1 as [|z1 k1].
    + cbn [app] in Hk1. subst p. destruct Hc. left.
    + injection Hk1 as <- ->. right. exists k1, y. by rewrite <- app_assoc.
  - destruct Hc. apply elem_of_app. right. left.
Qed.

End Tokens.

(** ** The spread token and the matches *)

Lemma spread_nonempty : spread ≠ [].
Proof. done. Qed.
Lemma spread_no_space : " " ∉ spread.
Proof. text_fact. Qed.
Lemma spread_no_comma : "," ∉ spread.
Proof. text_fact. Qed.
Lemma spread_no_paren : ")" ∉ spread.
Proof. text_fact. Qed.

(** Every match contains the token. *)
Lemma occurs_spread ind ind' s : occurs ind ind' s → contains spread s = true.
Proof.
  intros (p & q & -> & cap & rest & _ & ->). apply contains_spec.
  exists (p ++ cap ++ nl :: ind), (closing ind' ++ rest).
  unfold spread_tail. rewrite <- !app_assoc. cbn [app].
  by rewrite <- !app_assoc.
Qed.

Lemma rewrite_no_spread ind ind' s :
  contains spread s = false → rewrite ind ind' s = s.
Proof.
  intros H. apply rewrite_no_occurs. intros Ho.
  apply occurs_spread in Ho. congruence.
Qed.

Lemma sub2_no_spread s : contains spread s = false → sub2 s = s.
Proof.
  intros H. apply sub2_no_occurs. intros Ho.
  apply occurs_spread in Ho. congruence.
Qed.

Section SingleBlock.

Variables ind ind' : text.

Local Abbreviation L := (spread_tail ind ind').
Local Abbreviation R := (merge_tail ind').

Hypothesis ind_no_comma : "," ∉ ind.
Hypothesis ind_no_nl : nl ∉ ind.
Hypothesis L_blocks : forallb (head_block ind) (tails1 L) = true.
Hypothesis ind_space : ∃ i, ind = " " :: i.
Hypothesis R_clean : ∃ R0, R = R0 ++ [")"] ∧ contains spread R0 = false.

(** When the token occurs once, in the targeted block, that block is the
    only thing rewritten and the token is gone. *)
Lemma rewrite_single_block pre cap post :
  is_field ind cap →
  occurrences spread (pre ++ cap ++ L ++ post) = 1 →
  rewrite ind ind' (pre ++ cap ++ L ++ post) = pre ++ cap ++ R ++ post ∧
  contains spread (pre ++ cap ++ R ++ post) = false.
Proof.
  intros Hf Hocc.
  assert (Hs : pre ++ cap ++ L ++ post =
               (pre ++ cap ++ nl :: ind) ++ spread ++ (closing ind' ++ post)).
  { unfold spread_tail. rewrite <- !app_assoc. cbn [app].
    by rewrite <- !app_assoc. }
  pose proof (occurrences_around spread (pre ++ cap ++ nl :: ind)
                (closing ind' ++ post) spread_nonempty) as Hge.
  rewrite <- Hs, Hocc in Hge.
  assert (Ha : contains spread (pre ++ cap ++ nl :: ind) = false).
  { apply occurrences_0. lia. }
  assert (Hb : contains spread (closing ind' ++ post) = false).
  { apply occurrences_0. lia. }
  assert (Hpre : contains spread pre = false).
  { apply (contains_false_piece _ [] pre (cap ++ nl :: ind)). exact Ha. }
  assert (Hcap : contains spread cap = false).
  { apply (contains_false_piece _ pre cap (nl :: ind)). exact Ha. }
  assert (Hpost : contains spread post = false).
  { apply (contains_false_piece _ (closing ind') post []).
    by rewrite app_nil_r. }
  split.
  - rewrite (rewrite_block ind ind') by done.
    by rewrite !rewrite_no_spread.
  - apply not_true_iff_false. intros Hc.
    destruct (is_field_body ind ind_no_comma ind_no_nl _ Hf)
      as (body & Hbody & _).
    destruct R_clean as (R0 & HR & HR0).
    rewrite Hbody, HR in Hc.
    replace (pre ++ (body ++ [","]) ++ (R0 ++ [")"]) ++ post)
      with ((pre ++ body) ++ "," :: (R0 ++ ")" :: post)) in Hc
      by (rewrite <- !app_assoc; done).
    apply (contains_sep _ _ _ _ spread_no_comma) in Hc as [Hc|Hc].
    + destruct ind_space as [i Hi].
      destruct (is_field_head _ _ Hf) as (c & cap' & Hcap' & _).
      assert (Hbody' : ∃ body', body = " " :: body') .
      { rewrite Hi, Hbody in Hcap'. destruct body as [|x body].
        - destruct i; discriminate.
        - injection Hcap' as -> _. eauto. }
      destruct Hbody' as [body' ->].
      apply (contains_sep _ _ _ _ spread_no_space) in Hc as [Hc|Hc]; [congruence|].
      rewrite Hbody in Hcap.
      apply (contains_false_piece _ [" "] body' [","]) in Hcap. congruence.
    + apply (contains_sep _ _ _ _ spread_no_paren) in Hc as [Hc|Hc]; congruence.
Qed.

End SingleBlock.

(** ** The whole transformation on a targeted block *)

(** A block in the form of pattern 1 is rewritten in place, and the
    transformation treats the text on either side as if it stood alone. *)
Lemma pipeline_block1 pre cap post :
  is_field ind4 cap →
  sub3 (sub2 (sub1 (pre ++ cap ++ spread_tail ind4 ind2 ++ post))) =
  sub3 (sub2 (sub1 pre)) ++ cap ++ merge_tail ind2 ++ sub3 (sub2 (sub1 post)).
Proof.
  intros Hf.
  rewrite !sub2_no_occurs by apply sub1_clears1.
  unfold sub1. rewrite (rewrite_block ind4 ind2);
    auto using ind4_no_comma, ind4_no_nl.
  unfold sub3. apply (rewrite_inert_block ind4 ind2 ind2 ind0);
    auto using ind4_no_comma, ind4_no_nl, ind2_no_comma, ind2_no_nl, tail3_no_comma.
Qed.

Lemma merge_tail2_clean :
  ∃ R0, merge_tail ind2 = R0 ++ [")"] ∧ contains spread R0 = false.
Proof. exists (removelast (merge_tail ind2)). split; reflexivity. Qed.

Lemma merge_tail0_clean :
  ∃ R0, merge_tail ind0 = R0 ++ [")"] ∧ contains spread R0 = false.
Proof. exists (removelast (merge_tail ind0)). split; reflexivity. Qed.

Lemma contains_merge_call a ind' b :
  contains merge_call (a ++ merge_tail ind' ++ b) = true.
Proof.
  apply contains_spec.
  exists (a ++ nl :: ind' ++ lit "})" ++ nl :: ind'),
         (nl :: ind' ++ lit ".strict()" ++ b).
  unfold merge_tail.
  repeat first [rewrite <- app_assoc | rewrite <- app_comm_cons]. done.
Qed.

(** The token occurring once, inside a block in the form of pattern 1. *)
Lemma pipeline_single1 pre cap post :
  is_field ind4 cap →
  occurrences spread (pre ++ cap ++ spread_tail ind4 ind2 ++ post) = 1 →
  sub3 (sub2 (sub1 (pre ++ cap ++ spread_tail ind4 ind2 ++ post))) =
    pre ++ cap ++ merge_tail ind2 ++ post ∧
  contains spread (pre ++ cap ++ merge_tail ind2 ++ post) = false.
Proof.
  intros Hf Hocc.
  destruct (rewrite_single_block ind4 ind2 ind4_no_comma ind4_no_nl
              ltac:(reflexivity) ltac:(by exists (lit "   "))
              merge_tail2_clean pre cap post Hf Hocc) as [Heq Hclean].
  split; [|done]. unfold sub1. rewrite Heq.
  rewrite sub2_no_spread by done. by apply rewrite_no_spread.
Qed.

(** With a single token inside a block in the form of pattern 3, nothing
    in the text has the form of pattern 1. *)
Lemma single3_no_occurs1 pre cap post :
  is_field ind2 cap →
  occurrences spread (pre ++ cap ++ spread_tail ind2 ind0 ++ post) = 1 →
  ¬ occurs ind4 ind2 (pre ++ cap ++ spread_tail ind2 ind0 ++ post).
Proof.
  intros Hf Hocc (p & q & Heq & cap1 & rest & Hf1 & ->).
  assert (H3 : pre ++ cap ++ spread_tail ind2 ind0 ++ post =
               (pre ++ cap ++ [nl; " "; " "]) ++ spread ++ (closing ind0 ++ post)).
  { unfold spread_tail. rewrite <- !app_assoc. reflexivity. }
  assert (H1 : pre ++ cap ++ spread_tail ind2 ind0 ++ post =
               (p ++ cap1 ++ [nl; " "; " "; " "; " "]) ++ spread
               ++ (closing ind2 ++ rest)).
  { rewrite Heq. unfold spread_tail. rewrite <- !app_assoc. reflexivity. }
  pose proof (occurrences_unique _ _ _ _ _ _ Hocc H3 H1) as Hpos.
  replace (pre ++ cap ++ [nl; " "; " "])
    with (((pre ++ cap) ++ [nl]) ++ [" "; " "]) in Hpos
    by (rewrite <- !app_assoc; done).
  replace (p ++ cap1 ++ [nl; " "; " "; " "; " "])
    with (((p ++ cap1 ++ [nl; " "]) ++ [" "]) ++ [" "; " "]) in Hpos
    by (rewrite <- !app_assoc; done).
  apply app_inv_tail in Hpos. apply app_inj_tail in Hpos as [_ Hpos].
  discriminate.
Qed.

Lemma pipeline_single3 pre cap post :
  is_field ind2 cap →
  occurrences spread (pre ++ cap ++ spread_tail ind2 ind0 ++ post) = 1 →
  sub3 (sub2 (sub1 (pre ++ cap ++ spread_tail ind2 ind0 ++ post))) =
    pre ++ cap ++ merge_tail ind0 ++ post ∧
  contains spread (pre ++ cap ++ merge_tail ind0 ++ post) = false.
Proof.
  intros Hf Hocc.
  pose proof (single3_no_occurs1 _ _ _ Hf Hocc) as Hno.
  destruct (rewrite_single_block ind2 ind0 ind2_no_comma ind2_no_nl
              ltac:(reflexivity) ltac:(by exists (lit " "))
              merge_tail0_clean pre cap post Hf Hocc) as [Heq Hclean].
  split; [|done]. unfold sub1. rewrite (rewrite_no_occurs _ _ _ Hno).
  rewrite (sub2_no_occurs _ Hno). exact Heq.
Qed.

(** What a whole-text match of each compiled pattern looks like. *)
Lemma matches_whole_field ind ind' m :
  Re.matches_whole (field_regex ind ind') m = true →
  ∃ cap, is_field ind cap ∧ m = cap ++ spread_tail ind ind'.
Proof.
  unfold Re.matches_whole.
  destruct (Re.match_at _ m) as [st|] eqn:Hm; [|discriminate].
  apply match_field in Hm
    as (name & value & rest & Hn & Hnf & Hv & Hvf & -> & ->).
  cbn [Re.pos]. rewrite bool_decide_eq_true, !length_app. intros Hlen.
  assert (rest = []) as -> by (apply length_zero_iff_nil; lia).
  exists (ind ++ name ++ lit ": " ++ value ++ [","]).
  split; [by constructor|]. by rewrite app_nil_r.
Qed.

Lemma matches_whole_regex2 m :
  Re.matches_whole regex2 m = true →
  m = (field2 ++ [","]) ++ spread_tail ind4 ind2.
Proof.
  unfold Re.matches_whole.
  destruct (Re.match_at _ m) as [st|] eqn:Hm; [|discriminate].
  revert Hm. unfold Re.match_at, regex2. rewrite run_gopen. intros H.
  apply run_chars in H as (s1 & -> & H). rewrite run_gclose in H.
  destruct (run_chr_head _ _ _ _ _ H) as [s2 ->]. rewrite run_chr in H.
  apply run_chars_end in H as (rest & -> & ->).
  cbn [Re.pos shift Re.advance]. rewrite bool_decide_eq_true.
  rewrite !length_app. cbn [length]. rewrite !length_app. intros Hlen.
  assert (rest = []) as -> by (apply length_zero_iff_nil; lia).
  by rewrite app_nil_r, <- !app_assoc.
Qed.

(** ** The model on the sample texts *)

Example transform_sample_reading :
  transform sample_reading = Some sample_reading_fixed.
Proof. vm_compute. reflexivity. Qed.

Example transform_sample_common :
  transform sample_common = Some sample_common_fixed.
Proof. vm_compute. reflexivity. Qed.

Example transform_sample_reindented :
  transform sample_reindented = Some sample_reindented.
Proof. vm_compute. reflexivity. Qed.

(** Backtracking: the first candidate start fails at the comma inside the
    value and no later start succeeds. *)
Example transform_sample_comma_value :
  transform sample_comma_value = Some sample_comma_value.
Proof. vm_compute. reflexivity. Qed.

(** * Properties of the per-file transformation *)

(** C1. Applying the per-file transformation (the three substitutions in
    their fixed order) to its own output changes nothing: the
    transformation returns a text [once], and on [once] it returns [once]
    again. *)
Theorem transform_idempotent (content : text) :
  ∃ once, transform content = Some once ∧ transform once = Some once.
Proof.
  exists (sub3 (sub2 (sub1 content))). split; [apply transform_eq|].
  rewrite transform_eq. f_equal.
  destruct (pipeline_clear content) as [H1 H3]. by apply pipeline_fixpoint.
Qed.

(** C2. A text in which none of the three patterns has a match is
    returned unchanged, character for character.  In particular a spread
    idiom whose whitespace or layout differs from the patterns stays as it
    is, as the instance on [sample_reindented] shows. *)
Theorem transform_unmatched_unchanged (content : text) :
  Re.has_match pattern1 content = Some false →
  Re.has_match pattern2 content = Some false →
  Re.has_match pattern3 content = Some false →
  transform content = Some content.
Proof.
  unfold Re.has_match.
  rewrite compile_pattern1, compile_pattern2, compile_pattern3.
  cbn [mbind option_bind]. intros [= H1] [= H2] [= H3].
  apply search_field_false in H1, H3.
  rewrite transform_eq. f_equal.
  unfold sub1. rewrite (rewrite_no_occurs _ _ _ H1).
  unfold sub2. rewrite sub_from_no_match by by apply search_false.
  by apply rewrite_no_occurs.
Qed.

Lemma transform_unmatched_unchanged_witness :
  transform sample_reindented = Some sample_reindented.
Proof.
  apply transform_unmatched_unchanged; vm_compute; reflexivity.
Defined.

(** C3. If the text contains a piece that one of the three patterns
    matches as a whole, and the spread token occurs nowhere else in the
    text, then the output contains [.merge(PaginationSchema)] and no longer
    contains [...PaginationSchema.shape]. *)
Theorem targeted_block_merged (pattern : string) (r : Re.regex)
    (pre block post : text) :
  pattern ∈ [pattern1; pattern2; pattern3] →
  Re.compile pattern = Some r →
  Re.matches_whole r block = true →
  occurrences spread (pre ++ block ++ post) = 1 →
  ∃ out, transform (pre ++ block ++ post) = Some out ∧
         contains merge_call out = true ∧
         contains spread out = false.
Proof.
  intros Hin Hr Hm Hocc. rewrite transform_eq.
  apply elem_of_cons in Hin as [->|Hin];
    [|apply elem_of_cons in Hin as [->|Hin];
      [|apply list_elem_of_singleton in Hin as ->]].
  - rewrite compile_pattern1 in Hr. injection Hr as <-.
    apply matches_whole_field in Hm as (cap & Hf & ->).
    rewrite <- app_assoc in Hocc |- *.
    destruct (pipeline_single1 _ _ _ Hf Hocc) as [-> Hclean].
    eexists. split; [reflexivity|]. split; [|done].
    rewrite app_assoc. apply contains_merge_call.
  - rewrite compile_pattern2 in Hr. injection Hr as <-.
    apply matches_whole_regex2 in Hm as ->.
    rewrite <- app_assoc in Hocc |- *.
    destruct (pipeline_single1 _ _ _ field2_is_field Hocc) as [-> Hclean].
    eexists. split; [reflexivity|]. split; [|done].
    rewrite app_assoc. apply contains_merge_call.
  - rewrite compile_pattern3 in Hr. injection Hr as <-.
    apply matches_whole_field in Hm as (cap & Hf & ->).
    rewrite <- app_assoc in Hocc |- *.
    destruct (pipeline_single3 _ _ _ Hf Hocc) as [-> Hclean].
    eexists. split; [reflexivity|]. split; [|done].
    rewrite app_assoc. apply contains_merge_call.
Qed.

Lemma targeted_block_merged_witness :
  ∃ out,
    transform (unlines ["export const PagedSchema = z.object({"%string]
               ++ (lit "  response_format: ResponseFormatSchema,"
                   ++ spread_tail ind2 ind0)
               ++ [nl]) = Some out ∧
    contains merge_call out = true ∧ contains spread out = false.
Proof.
  apply (targeted_block_merged pattern3 (field_regex ind2 ind0)).
  - apply (bool_decide_unpack _). vm_compute. exact I.
  - vm_compute. reflexivity.
  - vm_compute. reflexivity.
  - vm_compute. reflexivity.
Defined.

(** The tails of the patterns and templates, spelled out. *)
Lemma spread_tail_pattern1 :
  spread_tail ind4 ind2 =
  [nl] ++ lit "    ...PaginationSchema.shape" ++ [nl] ++ lit "  })"
  ++ [nl] ++ lit "  .strict()".
Proof. reflexivity. Qed.

Lemma merge_tail_replacement1 :
  merge_tail ind2 =
  [nl] ++ lit "  })" ++ [nl] ++ lit "  .merge(PaginationSchema)"
  ++ [nl] ++ lit "  .strict()".
Proof. reflexivity. Qed.

(** C4, as stated, fails: [sample_comma_value] contains a block that ends
    in the line [...PaginationSchema.shape] followed by the closing brace
    and the [.strict()] call, in the very indentation of pattern 1, and the
    transformation returns the text as it was: the spread line is still
    there and no [.merge(PaginationSchema)] has been inserted. *)
Lemma comma_value_block_kept :
  sample_comma_value =
    unlines ["export const ListSchema = z"; "  .object({"]%string
    ++ lit "    sort: z.enum(['asc', 'desc']),"
    ++ ([nl] ++ lit "    ...PaginationSchema.shape" ++ [nl] ++ lit "  })"
        ++ [nl] ++ lit "  .strict()")
    ++ [nl] ∧
  transform sample_comma_value = Some sample_comma_value ∧
  contains spread sample_comma_value = true ∧
  contains merge_call sample_comma_value = false.
Proof. repeat split; vm_compute; reflexivity. Qed.

(** C4, amended.  Where the spread line directly follows a field line of
    the form pattern 1 captures (four spaces, a name of ASCII letters and
    underscores, [": "], a non-empty value without comma or newline, a
    comma) and is followed by ["  })"] and ["  .strict()"], the block is
    rewritten: the field line stays, the spread line is removed and
    ["  .merge(PaginationSchema)"] is inserted on its own line immediately
    before ["  .strict()"].  The text before and after the block comes out
    as the transformation would return it on its own. *)
Theorem field_block_rewritten (pre cap post : text) :
  is_field ind4 cap →
  ∃ pre' post',
    transform pre = Some pre' ∧ transform post = Some post' ∧
    transform (pre ++ cap
               ++ ([nl] ++ lit "    ...PaginationSchema.shape" ++ [nl]
                   ++ lit "  })" ++ [nl] ++ lit "  .strict()")
               ++ post)
    = Some (pre' ++ cap
            ++ ([nl] ++ lit "  })" ++ [nl] ++ lit "  .merge(PaginationSchema)"
                ++ [nl] ++ lit "  .strict()")
            ++ post').
Proof.
  intros Hf. rewrite <- spread_tail_pattern1, <- merge_tail_replacement1.
  exists (sub3 (sub2 (sub1 pre))), (sub3 (sub2 (sub1 post))).
  rewrite !transform_eq. repeat split. f_equal. by apply pipeline_block1.
Qed.

Lemma field_block_rewritten_witness :
  ∃ pre' post',
    transform (unlines ["export const GetRecordsSchema = z"; "  .object({";
                        "    docId: DocIdSchema,"]%string) = Some pre' ∧
    transform [nl] = Some post' ∧
    transform (unlines ["export const GetRecordsSchema = z"; "  .object({";
                        "    docId: DocIdSchema,"]%string
               ++ lit "    response_format: ResponseFormatSchema,"
               ++ ([nl] ++ lit "    ...PaginationSchema.shape" ++ [nl]
                   ++ lit "  })" ++ [nl] ++ lit "  .strict()")
               ++ [nl])
    = Some (pre' ++ lit "    response_format: ResponseFormatSchema,"
            ++ ([nl] ++ lit "  })" ++ [nl] ++ lit "  .merge(PaginationSchema)"
                ++ [nl] ++ lit "  .strict()")
            ++ post').
Proof.
  apply field_block_rewritten.
  apply (IsField ind4 (lit "response_format") (lit "ResponseFormatSchema"));
    [discriminate|reflexivity|discriminate|reflexivity].
Defined.

Lemma search_true r s :
  Re.search r s = true ↔ ∃ p q m, s = p ++ q ∧ Re.match_at r q = Some m.
Proof.
  split.
  - intros H. destruct (Re.search r s) eqn:Hs; [|discriminate]. clear H.
    induction s as [|c s IH]; cbn [Re.search] in Hs.
    + destruct (Re.match_at r []) as [m|] eqn:Hm; [|discriminate].
      by exists [], [], m.
    + destruct (Re.match_at r (c :: s)) as [m|] eqn:Hm.
      * by exists [], (c :: s), m.
      * destruct (IH Hs) as (p & q & m & -> & Hq). by exists (c :: p), q, m.
  - intros (p & q & m & Heq & Hm).
    destruct (Re.search r s) eqn:Hs; [done|].
    rewrite search_false in Hs. by rewrite (Hs p q Heq) in Hm.
Qed.

(** C9. The pattern-2 substitution is dead code.  (1) Whatever pattern 2
    matches, pattern 1 matches as well.  (2) After the pattern-1
    substitution no match of pattern 2 is left.  (3) The transformation
    equals substitution 1 followed by substitution 3.  (4) A block whose
    last field is [response_format: ResponseFormatSchema,] keeps the comma
    after that field in the output, (5) although substitution 2 alone would
    have dropped it. *)
Theorem pattern2_dead :
  (∀ s, Re.has_match pattern2 s = Some true →
        Re.has_match pattern1 s = Some true) ∧
  (∀ s, ∃ t, Re.sub pattern1 replacement1 s = Some t ∧
             Re.has_match pattern2 t = Some false) ∧
  (∀ s, transform s =
        Re.sub pattern1 replacement1 s ≫= Re.sub pattern3 replacement3) ∧
  (∀ pre post, ∃ pre' post',
     transform pre = Some pre' ∧ transform post = Some post' ∧
     transform (pre ++ lit "    response_format: ResponseFormatSchema,"
                ++ spread_tail ind4 ind2 ++ post)
     = Some (pre' ++ lit "    response_format: ResponseFormatSchema,"
             ++ merge_tail ind2 ++ post')) ∧
  Re.sub pattern2 replacement2
    (lit "    response_format: ResponseFormatSchema," ++ spread_tail ind4 ind2)
  = Some (lit "    response_format: ResponseFormatSchema" ++ merge_tail ind2).
Proof.
  split; [|split; [|split; [|split]]].
  - intros s. unfold Re.has_match.
    rewrite compile_pattern1, compile_pattern2. cbn [mbind option_bind].
    intros [= H]. f_equal. apply search_true in H as (p & q & m & -> & Hm).
    apply match2_starts1, starts_match in Hm as [m1 Hm1].
    apply search_true. eauto.
  - intros s. exists (sub1 s). split; [apply sub_pattern1|].
    unfold Re.has_match. rewrite compile_pattern2. cbn [mbind option_bind].
    f_equal. apply search_false. intros p q Heq.
    destruct (Re.match_at regex2 q) as [m|] eqn:Hm; [|done].
    destruct (sub1_clears1 s). exists p, q. split; [done|].
    by eapply match2_starts1.
  - intros s. rewrite transform_eq, sub_pattern1. cbn [mbind option_bind].
    rewrite sub_pattern3. by rewrite sub2_no_occurs by apply sub1_clears1.
  - intros pre post.
    exists (sub3 (sub2 (sub1 pre))), (sub3 (sub2 (sub1 post))).
    rewrite !transform_eq. repeat split. f_equal.
    apply (pipeline_block1 pre (field2 ++ [","]) post), field2_is_field.
  - vm_compute. reflexivity.
Qed.

(** * The run *)

Section Run.

Implicit Types (w : world) (p : string) (f : file).

Lemma transform_fixed s : transform s = Some (fixed_text s).
Proof. apply transform_eq. Qed.

Lemma stored_fits room (data : text) :
  fits room data = true → stored room data = data.
Proof.
  destruct room as [n|]; cbn [fits stored]; [|done].
  intros H. apply Nat.leb_le in H. by apply take_ge.
Qed.

Lemma usable_flags f :
  usable f = true →
  can_open_r f = true ∧ can_read f = true ∧ decodes f = true ∧
  can_open_w f = true ∧ fits (write_room f) (fixed_text (content f)) = true.
Proof. unfold usable. rewrite !andb_true_iff. tauto. Qed.

Lemma confirmation_line p :
  (check_mark ++ lit " Fixed " ++ lit p) ++ [nl] = confirmation p.
Proof. unfold confirmation. by rewrite <- !app_assoc. Qed.

(** The loop body up to the write, on a file that can be opened both ways
    and read. *)
Lemma fix_file_to_write w p f :
  fs w !! p = Some f →
  can_open_r f = true → can_read f = true → decodes f = true →
  can_open_w f = true →
  fix_file p w =
  (write p (fixed_text (content f)) ;;;
   print (check_mark ++ lit " Fixed " ++ lit p))
    (World (<[p := with_content f []]> (fs w)) (stdout w)
           (trace w ++ [Opened p "r"; ReadAll p; Opened p "w"])
           (argv w) (stdout_encode w)).
Proof.
  intros Hp Hor Hr Hd How.
  unfold fix_file, bind at 1 2 3 4, open_r, read, open_w, lift_re.
  rewrite Hp, Hor. cbn [fs log]. rewrite Hp, Hr, Hd.
  rewrite transform_fixed. unfold ret. cbn [fs log]. rewrite Hp, How.
  unfold log, set_fs. cbn [fs stdout trace argv stdout_encode].
  by rewrite <- !app_assoc.
Qed.

(** One pass of the loop body on a usable file, with a standard output
    that takes the confirmation. *)
Lemma fix_file_ok w p f :
  fs w !! p = Some f → usable f = true →
  is_Some (stdout_encode w (confirmation p)) →
  fix_file p w = (inr (), done_file w p).
Proof.
  intros Hp Hu [b Hb]. apply usable_flags in Hu as (Hor & Hr & Hd & How & Hfit).
  rewrite (fix_file_to_write w p f) by done.
  unfold bind, write, print, done_file. cbn [fs]. rewrite lookup_insert_eq, Hp.
  cbn [with_content write_room content app]. rewrite Hfit.
  cbn [log set_fs fs stdout trace argv stdout_encode].
  rewrite confirmation_line, Hb. unfold emitted. rewrite Hb.
  cbn [log set_fs set_stdout fs stdout trace argv stdout_encode default].
  rewrite insert_insert_eq, stored_fits by done.
  unfold with_content, file_events, log, set_fs, set_stdout.
  cbn [content can_open_r can_read decodes can_open_w write_room
       fs stdout trace argv stdout_encode].
  by rewrite <- !app_assoc.
Qed.

Lemma done_file_lookup_ne w p q :
  q ≠ p → fs (done_file w p) !! q = fs w !! q.
Proof.
  intros Hne. unfold done_file. destruct (fs w !! p); [|done].
  cbn [fs]. by rewrite lookup_insert_ne.
Qed.

Lemma done_file_encode w p : stdout_encode (done_file w p) = stdout_encode w.
Proof. unfold done_file. by destruct (fs w !! p). Qed.

Lemma after_encode w l : stdout_encode (after w l) = stdout_encode w.
Proof.
  revert w. induction l as [|q l IH]; intros w; [done|].
  unfold after in *. cbn [foldl]. by rewrite IH, done_file_encode.
Qed.

Lemma after_lookup_notin w l q :
  q ∉ l → fs (after w l) !! q = fs w !! q.
Proof.
  revert w. induction l as [|p l IH]; intros w Hq; [done|].
  apply not_elem_of_cons in Hq as [Hne Hq]. unfold after in *. cbn [foldl].
  rewrite IH by done. by apply done_file_lookup_ne.
Qed.

Lemma after_lookup_in w l p f :
  NoDup l → p ∈ l → fs w !! p = Some f →
  fs (after w l) !! p = Some (with_content f (fixed_text (content f))).
Proof.
  revert w. induction l as [|q l IH]; intros w Hnd Hin Hp.
  { by apply elem_of_nil in Hin. }
  apply NoDup_cons in Hnd as [Hq Hnd]. unfold after in *. cbn [foldl].
  apply elem_of_cons in Hin as [->|Hin].
  - change (foldl done_file ?w l) with (after w l).
    rewrite after_lookup_notin by done.
    unfold done_file. rewrite Hp. cbn [fs]. by rewrite lookup_insert_eq.
  - apply IH; [done..|]. rewrite done_file_lookup_ne; [done|].
    intros ->. done.
Qed.

Lemma after_dom w l :
  (∀ p, p ∈ l → is_Some (fs w !! p)) → dom (fs (after w l)) = dom (fs w).
Proof.
  revert w. induction l as [|q l IH]; intros w Hall; [done|].
  unfold after in *. cbn [foldl]. rewrite IH.
  - unfold done_file. destruct (fs w !! q) as [f|] eqn:Hq; [|done].
    cbn [fs]. rewrite dom_insert_L.
    apply (elem_of_dom_2 (D := gset string)) in Hq.
    apply subseteq_union_1_L. by apply singleton_subseteq_l.
  - intros p Hp. destruct (decide (p = q)) as [->|Hne].
    + destruct (Hall q ltac:(left)) as [f Hf].
      unfold done_file. rewrite Hf. cbn [fs]. rewrite lookup_insert_eq. eauto.
    + rewrite done_file_lookup_ne by done. apply Hall. by right.
Qed.

Lemma after_stdout w l :
  (∀ p, p ∈ l → is_Some (fs w !! p)) → NoDup l →
  stdout (after w l) =
  stdout w ++ flat_map (λ p, emitted w (confirmation p)) l.
Proof.
  revert w. induction l as [|q l IH]; intros w Hall Hnd.
  { cbn. by rewrite app_nil_r. }
  apply NoDup_cons in Hnd as [Hq Hnd]. unfold after in *. cbn [foldl flat_map].
  rewrite IH; [|intros p Hp|done].
  - unfold emitted. rewrite done_file_encode.
    destruct (Hall q ltac:(left)) as [f Hf]. unfold done_file. rewrite Hf.
    cbn [stdout]. by rewrite <- app_assoc.
  - rewrite done_file_lookup_ne by (intros ->; done). apply Hall. by right.
Qed.

Lemma events_of_ext w w' l :
  (∀ p, p ∈ l → fs w' !! p = fs w !! p) → events_of w' l = events_of w l.
Proof.
  intros H. unfold events_of. induction l as [|q l IH]; [done|].
  cbn [flat_map]. rewrite IH by (intros p Hp; apply H; by right).
  unfold content_of. rewrite H by left. done.
Qed.

Lemma after_trace w l :
  (∀ p, p ∈ l → is_Some (fs w !! p)) → NoDup l →
  trace (after w l) = trace w ++ events_of w l.
Proof.
  revert w. induction l as [|q l IH]; intros w Hall Hnd.
  { cbn. by rewrite app_nil_r. }
  apply NoDup_cons in Hnd as [Hq Hnd]. unfold after in *. cbn [foldl].
  assert (Hl : ∀ p, p ∈ l → fs (done_file w q) !! p = fs w !! p).
  { intros p Hp. apply done_file_lookup_ne. intros ->. done. }
  rewrite IH; [|intros p Hp; rewrite Hl by done; apply Hall; by right|done].
  rewrite (events_of_ext w) by done.
  destruct (Hall q ltac:(left)) as [f Hf]. unfold done_file. rewrite Hf.
  cbn [trace]. unfold events_of at 2. cbn [flat_map].
  unfold content_of. rewrite Hf. cbn [from_option]. by rewrite <- app_assoc.
Qed.

Lemma after_argv w l : argv (after w l) = argv w.
Proof.
  revert w. induction l as [|q l IH]; intros w; [done|].
  unfold after in *. cbn [foldl]. rewrite IH.
  unfold done_file. by destruct (fs w !! q).
Qed.

(** The loop over usable files whose confirmations standard output takes
    runs to its end. *)
Lemma for_each_ok w l :
  NoDup l →
  (∀ p, p ∈ l → ∃ f, fs w !! p = Some f ∧ usable f = true) →
  (∀ p, p ∈ l → is_Some (stdout_encode w (confirmation p))) →
  for_each l fix_file w = (inr (), after w l).
Proof.
  revert w. induction l as [|q l IH]; intros w Hnd Hall Henc; [done|].
  apply NoDup_cons in Hnd as [Hq Hnd].
  destruct (Hall q ltac:(left)) as (f & Hf & Hu).
  cbn [for_each]. unfold bind at 1.
  rewrite (fix_file_ok _ _ _ Hf Hu (Henc q ltac:(left))).
  unfold after. cbn [foldl]. apply IH; [done| |].
  - intros p Hp. rewrite done_file_lookup_ne by (intros ->; done).
    apply Hall. by right.
  - intros p Hp. rewrite done_file_encode. apply Henc. by right.
Qed.

Lemma for_each_app {A} (l1 l2 : list A) (body : A → M unit) w :
  for_each (l1 ++ l2) body w =
  (for_each l1 body ;;; for_each l2 body) w.
Proof.
  revert w. induction l1 as [|x l1 IH]; intros w; cbn [app for_each].
  - done.
  - unfold bind in *. destruct (body x w) as [[e|[]] w']; [done|].
    by rewrite IH.
Qed.

Lemma files_nodup : NoDup files_to_fix.
Proof. apply (bool_decide_unpack _). vm_compute. exact I. Qed.

Lemma usable_some w (l : list string) :
  (∀ p, p ∈ l → ∃ f, fs w !! p = Some f ∧ usable f = true) →
  ∀ p, p ∈ l → is_Some (fs w !! p).
Proof. intros Hall p Hp. destruct (Hall p Hp) as (f & -> & _). eauto. Qed.

(** The successful run, in full. *)
Lemma main_ok w :
  (∀ p, p ∈ files_to_fix → ∃ f, fs w !! p = Some f ∧ usable f = true) →
  (∀ p, p ∈ files_to_fix → is_Some (stdout_encode w (confirmation p))) →
  is_Some (stdout_encode w completion) →
  main w =
  (inr (),
   World (fs (after w files_to_fix))
         (stdout w ++ flat_map (λ p, emitted w (confirmation p)) files_to_fix
          ++ emitted w completion)
         (trace w ++ events_of w files_to_fix ++ [Printed done_message])
         (argv w) (stdout_encode w)).
Proof.
  intros Hall Henc [b Hb].
  pose proof (usable_some _ _ Hall) as Hsome.
  unfold main, bind. rewrite (for_each_ok _ _ files_nodup Hall Henc).
  unfold print. rewrite after_encode.
  change ((nl :: lit "Done! All files fixed.") ++ [nl]) with completion.
  unfold emitted at 2. rewrite Hb.
  unfold log, set_stdout. cbn [fs stdout trace argv stdout_encode default].
  rewrite (after_stdout _ _ Hsome files_nodup).
  rewrite (after_trace _ _ Hsome files_nodup).
  rewrite after_argv, after_encode.
  unfold done_message. by rewrite <- !app_assoc.
Qed.


(** One pass of the loop body on a missing or not usable file. *)
Lemma fix_file_fails w p :
  (∀ f, fs w !! p = Some f → usable f = false) →
  ∃ e w', fix_file p w = (inl e, w') ∧
    e ∈ [FileNotFoundError p; PermissionError p; OSError p;
         UnicodeDecodeError p] ∧
    stdout w' = stdout w ∧ stdout_encode w' = stdout_encode w ∧
    (∀ q, q ≠ p → fs w' !! q = fs w !! q) ∧
    ∃ part, trace w' = trace w ++ part ∧
            part `prefix_of` [Opened p "r"; ReadAll p; Opened p "w"].
Proof.
  intros Hbad.
  destruct (fs w !! p) as [f|] eqn:Hp.
  2:{ exists (FileNotFoundError p), w. unfold fix_file, bind, open_r.
      rewrite Hp. repeat split; [set_solver|].
      exists []. split; [by rewrite app_nil_r|apply prefix_nil]. }
  specialize (Hbad f eq_refl). unfold usable in Hbad.
  destruct (can_open_r f) eqn:Hor.
  2:{ exists (PermissionError p), w. unfold fix_file, bind, open_r.
      rewrite Hp, Hor. repeat split; [set_solver|].
      exists []. split; [by rewrite app_nil_r|apply prefix_nil]. }
  destruct (can_read f) eqn:Hr.
  2:{ eexists (OSError p), _. unfold fix_file, bind, open_r, read.
      rewrite Hp, Hor. cbn [fs log]. rewrite Hp, Hr.
      split; [reflexivity|]. repeat split; [set_solver|].
      exists [Opened p "r"]. split; [done|]. by eexists. }
  destruct (decodes f) eqn:Hd.
  2:{ eexists (UnicodeDecodeError p), _. unfold fix_file, bind, open_r, read.
      rewrite Hp, Hor. cbn [fs log]. rewrite Hp, Hr, Hd.
      split; [reflexivity|]. repeat split; [set_solver|].
      exists [Opened p "r"]. split; [done|]. by eexists. }
  destruct (can_open_w f) eqn:How.
  2:{ eexists (PermissionError p), _.
      unfold fix_file, bind, open_r, read, open_w, lift_re.
      rewrite Hp, Hor. cbn [fs log]. rewrite Hp, Hr, Hd.
      rewrite transform_fixed. unfold ret. cbn [fs log]. rewrite Hp, How.
      split; [reflexivity|]. repeat split; [set_solver|].
      exists [Opened p "r"; ReadAll p]. cbn [trace log].
      split; [by rewrite <- ?app_assoc|]. by eexists. }
  cbn [andb] in Hbad.
  rewrite (fix_file_to_write w p f) by done.
  unfold bind, write. cbn [fs]. rewrite lookup_insert_eq.
  cbn [with_content write_room content app]. rewrite Hbad.
  eexists _, _. split; [reflexivity|]. cbn [set_fs fs stdout trace stdout_encode].
  split; [set_solver|]. split; [done|]. split; [done|]. split.
  - intros q Hq. by rewrite !lookup_insert_ne.
  - by exists [Opened p "r"; ReadAll p; Opened p "w"].
Qed.

(** One pass of the loop body on a usable file whose confirmation
    standard output refuses: the file is rewritten and the print raises. *)
Lemma fix_file_print_refused w p f :
  fs w !! p = Some f → usable f = true →
  stdout_encode w (confirmation p) = None →
  ∃ w', fix_file p w = (inl UnicodeEncodeError, w') ∧
    stdout w' = stdout w ∧ stdout_encode w' = stdout_encode w ∧
    fs w' = <[p := with_content f (fixed_text (content f))]> (fs w) ∧
    trace w' = trace w ++ [Opened p "r"; ReadAll p; Opened p "w";
                           Wrote p (fixed_text (content f))].
Proof.
  intros Hp Hu Hb. apply usable_flags in Hu as (Hor & Hr & Hd & How & Hfit).
  rewrite (fix_file_to_write w p f) by done.
  unfold bind, write, print. cbn [fs]. rewrite lookup_insert_eq.
  cbn [with_content write_room content app]. rewrite Hfit.
  cbn [log set_fs fs stdout trace argv stdout_encode].
  rewrite confirmation_line, Hb.
  eexists. split; [reflexivity|].
  cbn [log set_fs fs stdout trace argv stdout_encode].
  rewrite insert_insert_eq, stored_fits by done.
  split; [done|]. split; [done|]. split; [done|]. by rewrite <- app_assoc.
Qed.

(** *** The outcome depends on the listed files and the encoding only *)

















(** *** Where a run stops *)




Lemma split_nodup before p later :
  files_to_fix = before ++ p :: later →
  NoDup before ∧ (p ∉ before) ∧ (∀ q, q ∈ later → (q ∉ before) ∧ q ≠ p).
Proof.
  intros Hsplit. pose proof files_nodup as Hnd. rewrite Hsplit in Hnd.
  apply NoDup_app in Hnd as (Hnd1 & Hdisj & Hnd2).
  apply NoDup_cons in Hnd2 as [Hp_later _].
  split; [done|]. split.
  - intros Hin. apply (Hdisj p Hin). left.
  - intros q Hq. split.
    + intros Hin. apply (Hdisj q Hin). by right.
    + intros ->. done.
Qed.

(** The run ends where the loop body first raises. *)
Lemma main_stops_at w before p later e w' :
  files_to_fix = before ++ p :: later →
  (∀ q, q ∈ before → ∃ f, fs w !! q = Some f ∧ usable f = true) →
  (∀ q, q ∈ before → is_Some (stdout_encode w (confirmation q))) →
  fix_file p (after w before) = (inl e, w') →
  main w = (inl e, w').
Proof.
  intros Hsplit Hbefore Henc Hfail.
  destruct (split_nodup _ _ _ Hsplit) as (Hnd1 & _ & _).
  unfold main, bind. rewrite Hsplit, for_each_app. unfold bind.
  rewrite (for_each_ok _ _ Hnd1 Hbefore Henc). cbn [for_each]. unfold bind.
  by rewrite Hfail.
Qed.



End Run.

(** * Properties of the run *)

Lemma sample_world_usable :
  ∀ p, p ∈ files_to_fix → ∃ f, fs sample_world !! p = Some f ∧ usable f = true.
Proof.
  intros p Hp. unfold files_to_fix in Hp.
  repeat (apply elem_of_cons in Hp as [->|Hp]);
    [..|by apply elem_of_nil in Hp];
    eexists; (split; [vm_compute; reflexivity|reflexivity]).
Defined.

Lemma sample_world_accepts :
  ∀ p, p ∈ files_to_fix →
       is_Some (stdout_encode sample_world (confirmation p)).
Proof. intros p _. eexists. reflexivity. Defined.

Lemma sample_world_accepts_completion :
  is_Some (stdout_encode sample_world completion).
Proof. eexists. reflexivity. Defined.





(** C7. If a listed file is missing, or one of the operations on it is
    refused, while the loop body went through for the files before it in
    the list, the run ends with that exception: the files later in the list
    are as they were, standard output holds the confirmation lines of the
    files before the failing one and nothing more (none for the failing
    file or a later one, no completion line), and after the operations on
    the earlier files the run performed at most the opening, reading and
    opening-for-writing of the failing file, each at most once. *)
Theorem failure_stops_run (w : world) (before : list string) (p : string)
    (later : list string) :
  files_to_fix = before ++ p :: later →
  (∀ q, q ∈ before → ∃ f, fs w !! q = Some f ∧ usable f = true) →
  (∀ q, q ∈ before → is_Some (stdout_encode w (confirmation q))) →
  (∀ f, fs w !! p = Some f → usable f = false) →
  ∃ e w',
    main w = (inl e, w') ∧
    e ∈ [FileNotFoundError p; PermissionError p; OSError p;
         UnicodeDecodeError p] ∧
    (∀ q, q ∈ later → fs w' !! q = fs w !! q) ∧
    stdout w' =
      stdout w ++ flat_map (λ q, emitted w (confirmation q)) before ∧
    ∃ part,
      trace w' = trace w ++ events_of w before ++ part ∧
      part `prefix_of` [Opened p "r"; ReadAll p; Opened p "w"].
Proof.
  intros Hsplit Hbefore Henc Hbad.
  destruct (split_nodup _ _ _ Hsplit) as (Hnd1 & Hnb & Hlater).
  pose proof (usable_some _ _ Hbefore) as Hsome.
  destruct (fix_file_fails (after w before) p)
    as (e & w' & Hfail & He & Hout & _ & Hfs & part & Htr & Hpart).
  { intros f. rewrite after_lookup_notin by done. apply Hbad. }
  exists e, w'. split; [by eapply main_stops_at|]. split; [done|].
  split; [|split].
  - intros q Hq. destruct (Hlater q Hq) as [Hqb Hqp].
    rewrite Hfs by done. by apply after_lookup_notin.
  - by rewrite Hout, after_stdout.
  - exists part. split; [|done].
    by rewrite Htr, after_trace, <- app_assoc.
Qed.

Lemma failure_stops_run_witness :
  ∃ e w',
    main sample_world_readonly = (inl e, w') ∧
    e ∈ [FileNotFoundError "src/tools/reading.ts";
         PermissionError "src/tools/reading.ts";
         OSError "src/tools/reading.ts";
         UnicodeDecodeError "src/tools/reading.ts"] ∧
    (∀ q, q ∈ ["src/schemas/common.ts"%string] →
          fs w' !! q = fs sample_world_readonly !! q) ∧
    stdout w' =
      stdout sample_world_readonly
      ++ flat_map (λ q, emitted sample_world_readonly (confirmation q))
                  ["src/tools/discovery.ts"%string] ∧
    ∃ part,
      trace w' = trace sample_world_readonly
                 ++ events_of sample_world_readonly ["src/tools/discovery.ts"%string]
                 ++ part ∧
      part `prefix_of` [Opened "src/tools/reading.ts" "r";
                        ReadAll "src/tools/reading.ts";
                        Opened "src/tools/reading.ts" "w"].
Proof.
  apply (failure_stops_run sample_world_readonly
           ["src/tools/discovery.ts"%string] "src/tools/reading.ts"%string
           ["src/schemas/common.ts"%string]).
  - reflexivity.
  - intros q Hq. apply list_elem_of_singleton in Hq as ->.
    eexists. split; [vm_compute; reflexivity|reflexivity].
  - intros q _. eexists. reflexivity.
  - intros f Hf. vm_compute in Hf. injection Hf as <-. reflexivity.
Defined.

(** C8. On a successful run each of the three files is written exactly
    once, at its own path, with what the transformation returns on its
    previous content (whether or not that differs from the previous
    content); the three files end up with that content, every other path
    holds what it held before, and no path is added or removed. *)
Theorem main_writes_each_file_once (w : world) :
  (∀ p, p ∈ files_to_fix → ∃ f, fs w !! p = Some f ∧ usable f = true) →
  (∀ p, p ∈ files_to_fix → is_Some (stdout_encode w (confirmation p))) →
  is_Some (stdout_encode w completion) →
  ∃ w' new (out : string → text),
    main w = (inr (), w') ∧
    trace w' = trace w ++ new ∧
    (∀ p, p ∈ files_to_fix → transform (content_of w p) = Some (out p)) ∧
    writes_of new =
      [ ("src/tools/discovery.ts"%string, out "src/tools/discovery.ts"%string);
        ("src/tools/reading.ts"%string, out "src/tools/reading.ts"%string);
        ("src/schemas/common.ts"%string, out "src/schemas/common.ts"%string) ] ∧
    (∀ p f, p ∈ files_to_fix → fs w !! p = Some f →
            fs w' !! p = Some (with_content f (out p))) ∧
    (∀ q, q ∉ files_to_fix → fs w' !! q = fs w !! q) ∧
    dom (fs w') = dom (fs w).
Proof.
  intros Hall Henc Hdone.
  pose proof (usable_some _ _ Hall) as Hsome.
  eexists _, _, (λ p, fixed_text (content_of w p)).
  split; [by apply main_ok|]. cbn [trace fs].
  split; [reflexivity|]. split; [intros p _; apply transform_fixed|].
  split; [reflexivity|]. split; [|split].
  - intros p f Hp Hf. rewrite (after_lookup_in _ _ _ _ files_nodup Hp Hf).
    unfold content_of. by rewrite Hf.
  - intros q Hq. by apply after_lookup_notin.
  - by apply after_dom.
Qed.

Lemma main_writes_each_file_once_witness :
  ∃ w' new (out : string → text),
    main sample_world = (inr (), w') ∧
    trace w' = trace sample_world ++ new ∧
    (∀ p, p ∈ files_to_fix →
          transform (content_of sample_world p) = Some (out p)) ∧
    writes_of new =
      [ ("src/tools/discovery.ts"%string, out "src/tools/discovery.ts"%string);
        ("src/tools/reading.ts"%string, out "src/tools/reading.ts"%string);
        ("src/schemas/common.ts"%string, out "src/schemas/common.ts"%string) ] ∧
    (∀ p f, p ∈ files_to_fix → fs sample_world !! p = Some f →
            fs w' !! p = Some (with_content f (out p))) ∧
    (∀ q, q ∉ files_to_fix → fs w' !! q = fs sample_world !! q) ∧
    dom (fs w') = dom (fs sample_world).
Proof.
  apply main_writes_each_file_once;
    [exact sample_world_usable|exact sample_world_accepts
    |exact sample_world_accepts_completion].
Defined.




(** * Further properties of the substitutions *)

(** ** A block that a substitution passes over *)

Section Foreign.

(** Substitution [j] run over text that holds a field line of indentation
    [ind] followed by some fixed text [T] which is not the tail pattern [j]
    looks for. *)
Variables ind jnd jnd' : text.
Variable T : text.

Local Abbreviation Lj := (spread_tail jnd jnd').
Local Abbreviation rwj := (rewrite jnd jnd').

Hypothesis ind_no_comma : "," ∉ ind.
Hypothesis ind_no_nl : nl ∉ ind.
Hypothesis jnd_no_comma : "," ∉ jnd.
Hypothesis jnd_no_nl : nl ∉ jnd.
Hypothesis Lj_no_comma : "," ∉ Lj.
Hypothesis Lj_clash_T : clash Lj T = true.
Hypothesis T_blocks : forallb (head_block jnd) (tails1 T) = true.
Hypothesis Lj_blocks : forallb (head_block ind) (tails1 Lj) = true.

Lemma foreign_block_inert cap p x y :
  is_field ind cap → cap ++ T = p ++ x → x ≠ [] → ¬ starts jnd jnd' (x ++ y).
Proof.
  intros Hf Heq Hx.
  apply app_eq_inv in Heq as [(k & Hcap & ->)|(k & -> & HT)].
  - destruct k as [|c0 k0].
    { cbn [app] in *. apply (blocked_suffix _ _ T); [done|done|by exists []]. }
    destruct (is_field_body ind ind_no_comma ind_no_nl _ Hf)
      as (body & -> & Hb & _).
    symmetry in Hcap. apply suffix_snoc in Hcap as (kb & -> & ->); [|done].
    intros (capj & rest & Hfj & Heq).
    destruct (is_field_body jnd jnd_no_comma jnd_no_nl _ Hfj)
      as (bj & -> & Hbj & _).
    rewrite <- !app_assoc in Heq. cbn [app] in Heq.
    apply not_elem_of_app_cons_inv_l in Heq as (_ & _ & Heq).
    + symmetry in Heq. by apply clash_sound in Heq.
    + done.
    + apply not_elem_of_app in Hb as [_ Hb]. done.
  - apply (blocked_suffix _ _ T); [done..|by exists k].
Qed.

Lemma rewrite_foreign_block A cap B :
  is_field ind cap →
  rwj (A ++ cap ++ T ++ B) = rwj A ++ cap ++ T ++ rwj B.
Proof.
  intros Hf. induction A as [A IH] using (induction_ltof1 _ (@length ascii)).
  unfold ltof in IH. destruct A as [|c A'].
  { cbn [app]. rewrite rewrite_nil. cbn [app].
    rewrite app_assoc, rewrite_inert_prefix; [by rewrite <- app_assoc|].
    intros p x Heq Hx. by apply (foreign_block_inert cap p). }
  destruct (starts_dec jnd jnd' ((c :: A') ++ cap ++ T ++ B))
    as [(capj & restj & Hfj & Heq)|Hno].
  - destruct (is_field_body ind ind_no_comma ind_no_nl _ Hf)
      as (body & Hcap & Hb & _).
    destruct (is_field_body jnd jnd_no_comma jnd_no_nl _ Hfj)
      as (bj & Hcapj & Hbj & _).
    destruct (decide ("," ∈ c :: A')) as [Hin|Hnin].
    + apply list_elem_of_split_l in Hin as (a & b & HA & Ha).
      rewrite HA, Hcapj in Heq. rewrite <- !app_assoc in Heq. cbn [app] in Heq.
      apply not_elem_of_app_cons_inv_l in Heq as (-> & _ & Heq); [|done..].
      assert (Hk : ∃ k, b = Lj ++ k ∧ restj = k ++ cap ++ T ++ B).
      { apply app_eq_inv in Heq as [(k & -> & ->)|(k & HL & Hk)]; [by eauto|].
        destruct k as [|x k].
        - rewrite app_nil_r in HL. subst b. exists []. by rewrite app_nil_r.
        - exfalso. symmetry in Hk. revert Hk.
          apply (blocked_field ind Lj); [done|done|by exists b|done]. }
      destruct Hk as (k & -> & ->).
      rewrite HA.
      replace (bj ++ "," :: Lj ++ k) with (capj ++ Lj ++ k)
        by (rewrite Hcapj, <- !app_assoc; done).
      rewrite <- !app_assoc. rewrite !rewrite_match by done.
      rewrite IH; [by rewrite <- !app_assoc|].
      rewrite HA, length_app. cbn [length]. rewrite length_app. lia.
    + rewrite Hcap, Hcapj in Heq. rewrite <- !app_assoc in Heq.
      cbn [app] in Heq. rewrite !app_comm_cons, app_assoc in Heq.
      apply not_elem_of_app_cons_inv_l in Heq as (_ & _ & Heq);
        [|done|by apply not_elem_of_app].
      symmetry in Heq. by apply clash_sound in Heq.
  - cbn [app] in *. rewrite rewrite_miss by done.
    rewrite IH by (simpl; lia).
    rewrite (rewrite_miss _ _ c A'); [done|].
    intros Hs. apply Hno. by apply (starts_app _ _ (c :: A')).
Qed.

End Foreign.

(** Substitution 1 passes over a block in the form of pattern 3, and
    substitution 3 over one in the form of pattern 1. *)
Lemma sub1_over_block3 A cap B :
  is_field ind2 cap →
  sub1 (A ++ cap ++ spread_tail ind2 ind0 ++ B) =
  sub1 A ++ cap ++ spread_tail ind2 ind0 ++ sub1 B.
Proof.
  intros Hf. unfold sub1.
  apply (rewrite_foreign_block ind2 ind4 ind2);
    auto using ind4_no_comma, ind4_no_nl, ind2_no_comma, ind2_no_nl, tail1_no_comma.
Qed.

Lemma sub3_over_block1 A cap B :
  is_field ind4 cap →
  sub3 (A ++ cap ++ spread_tail ind4 ind2 ++ B) =
  sub3 A ++ cap ++ spread_tail ind4 ind2 ++ sub3 B.
Proof.
  intros Hf. unfold sub3.
  apply (rewrite_foreign_block ind4 ind2 ind0);
    auto using ind4_no_comma, ind4_no_nl, ind2_no_comma, ind2_no_nl, tail3_no_comma.
Qed.

Lemma sub3_over_merged1 A cap B :
  is_field ind4 cap →
  sub3 (A ++ cap ++ merge_tail ind2 ++ B) =
  sub3 A ++ cap ++ merge_tail ind2 ++ sub3 B.
Proof.
  intros Hf. unfold sub3.
  apply (rewrite_inert_block ind4 ind2 ind2 ind0);
    auto using ind4_no_comma, ind4_no_nl, ind2_no_comma, ind2_no_nl, tail3_no_comma.
Qed.

Lemma sub1_over_merged3 A cap B :
  is_field ind2 cap →
  sub1 (A ++ cap ++ merge_tail ind0 ++ B) =
  sub1 A ++ cap ++ merge_tail ind0 ++ sub1 B.
Proof.
  intros Hf. unfold sub1.
  apply (rewrite_inert_block ind2 ind0 ind4 ind2);
    auto using ind4_no_comma, ind4_no_nl, ind2_no_comma, ind2_no_nl, tail1_no_comma.
Qed.

(** The whole transformation on a block in the form of pattern 3. *)
Lemma pipeline_block3 pre cap post :
  is_field ind2 cap →
  fixed_text (pre ++ cap ++ spread_tail ind2 ind0 ++ post) =
  fixed_text pre ++ cap ++ merge_tail ind0 ++ fixed_text post.
Proof.
  intros Hf. unfold fixed_text.
  rewrite !sub2_no_occurs by apply sub1_clears1.
  rewrite sub1_over_block3 by done.
  unfold sub3. apply (rewrite_block ind2 ind0);
    auto using ind2_no_comma, ind2_no_nl.
Qed.

(** ** Substitutions 1 and 3 in either order *)

Lemma starts3_sub1 s : starts ind2 ind0 (sub1 s) → starts ind2 ind0 s.
Proof.
  apply (starts_rewrite ind4 ind2 ind2 ind0);
    auto using ind4_no_comma, ind4_no_nl, ind2_no_comma, ind2_no_nl, tail3_no_comma.
Qed.

Lemma starts1_sub3 s : starts ind4 ind2 (sub3 s) → starts ind4 ind2 s.
Proof.
  apply (starts_rewrite ind2 ind0 ind4 ind2);
    auto using ind4_no_comma, ind4_no_nl, ind2_no_comma, ind2_no_nl, tail1_no_comma.
Qed.

Lemma sub1_nil : sub1 [] = [].
Proof. apply rewrite_nil. Qed.

Lemma sub3_nil : sub3 [] = [].
Proof. apply rewrite_nil. Qed.

Lemma sub1_sub3_commute s : sub3 (sub1 s) = sub1 (sub3 s).
Proof.
  induction s as [s IH] using (induction_ltof1 _ (@length ascii)).
  unfold ltof in IH. destruct s as [|c s].
  { by rewrite sub1_nil, sub3_nil, sub1_nil. }
  destruct (starts_dec ind4 ind2 (c :: s)) as [(cap & rest & Hf & Heq)|Hno1].
  { rewrite Heq.
    assert (Hlen : length rest < length (c :: s)).
    { rewrite Heq, !length_app. unfold spread_tail. simpl. lia. }
    pose proof (sub3_over_block1 [] cap rest Hf) as E1.
    pose proof (sub3_over_merged1 [] cap (sub1 rest) Hf) as E2.
    rewrite sub3_nil in E1, E2. cbn [app] in E1, E2.
    assert (E3 : ∀ x, sub1 (cap ++ spread_tail ind4 ind2 ++ x) =
                      cap ++ merge_tail ind2 ++ sub1 x).
    { intros x. by apply rewrite_match. }
    rewrite E1, !E3, E2. do 2 f_equal. by apply IH. }
  destruct (starts_dec ind2 ind0 (c :: s)) as [(cap & rest & Hf & Heq)|Hno3].
  { rewrite Heq.
    assert (Hlen : length rest < length (c :: s)).
    { rewrite Heq, !length_app. unfold spread_tail. simpl. lia. }
    pose proof (sub1_over_block3 [] cap rest Hf) as E1.
    pose proof (sub1_over_merged3 [] cap (sub3 rest) Hf) as E2.
    rewrite sub1_nil in E1, E2. cbn [app] in E1, E2.
    assert (E3 : ∀ x, sub3 (cap ++ spread_tail ind2 ind0 ++ x) =
                      cap ++ merge_tail ind0 ++ sub3 x).
    { intros x. by apply rewrite_match. }
    rewrite E1, !E3, E2. do 2 f_equal. by apply IH. }
  assert (H1 : sub1 (c :: s) = c :: sub1 s) by by apply rewrite_miss.
  assert (H3 : sub3 (c :: s) = c :: sub3 s) by by apply rewrite_miss.
  rewrite H1, H3.
  assert (H31 : sub3 (c :: sub1 s) = c :: sub3 (sub1 s)).
  { apply rewrite_miss. rewrite <- H1. intros Hs. by apply Hno3, starts3_sub1. }
  assert (H13 : sub1 (c :: sub3 s) = c :: sub1 (sub3 s)).
  { apply rewrite_miss. rewrite <- H3. intros Hs. by apply Hno1, starts1_sub3. }
  rewrite H31, H13. f_equal. apply IH. simpl. lia.
Qed.

(** ** What a substitution keeps and what it changes *)

Lemma count_char_app c a b :
  count_char c (a ++ b) = count_char c a + count_char c b.
Proof.
  unfold count_char. by rewrite (filter_app (λ x, x = c)), length_app.
Qed.

Section Measure.

Variables ind ind' : text.

Local Abbreviation L := (spread_tail ind ind').
Local Abbreviation R := (merge_tail ind').
Local Abbreviation rw := (rewrite ind ind').

(** A character that the two tails hold equally often is as frequent in
    the output as in the input. *)
Lemma rewrite_count c s :
  count_char c R = count_char c L → count_char c (rw s) = count_char c s.
Proof.
  intros HLR. apply (rewrite_ind ind ind') with
    (P := λ s out, count_char c out = count_char c s); clear s.
  - done.
  - intros cap rest _ IH. rewrite !count_char_app. lia.
  - intros x s _ IH. change (x :: ?l) with ([x] ++ l).
    rewrite !count_char_app. lia.
Qed.

(** Each rewritten block makes the text shorter by the difference of the
    two tails. *)
Lemma rewrite_length d s :
  length L = length R + d →
  ∃ k, length s = length (rw s) + d * k ∧ (k = 0 → rw s = s).
Proof.
  intros HLR. apply (rewrite_ind ind ind') with
    (P := λ s out, ∃ k, length s = length out + d * k ∧ (k = 0 → out = s));
    clear s.
  - exists 0. split; [simpl; lia|done].
  - intros cap rest _ (k & Hk & _). exists (S k).
    split; [|discriminate]. rewrite !length_app. lia.
  - intros x s _ (k & Hk & Hid). exists k.
    split; [simpl; lia|]. intros Hk0. by rewrite Hid.
Qed.

(** A changed output contains a rewritten block. *)
Lemma rewrite_changed s :
  rw s ≠ s → ∃ u cap rest, rw s = u ++ cap ++ R ++ rest.
Proof.
  apply (rewrite_ind ind ind') with
    (P := λ s out, out ≠ s → ∃ u cap rest, out = u ++ cap ++ R ++ rest);
    clear s.
  - done.
  - intros cap rest _ _ _. by exists [], cap, (rw rest).
  - intros x s _ IH Hne. destruct IH as (u & cap & rest & ->).
    + intros Heq. apply Hne. by rewrite Heq.
    + by exists (x :: u), cap, rest.
Qed.

End Measure.

Lemma fixed_text_sub3_sub1 s : fixed_text s = sub3 (sub1 s).
Proof. unfold fixed_text. by rewrite sub2_no_occurs by apply sub1_clears1. Qed.

Lemma fixed_text_idem s : fixed_text (fixed_text s) = fixed_text s.
Proof.
  destruct (pipeline_clear s) as [H1 H3]. by apply pipeline_fixpoint.
Qed.

(** ** Further properties of the per-file transformation *)

Lemma spread_tail_pattern3 :
  spread_tail ind2 ind0 =
  [nl] ++ lit "  ...PaginationSchema.shape" ++ [nl] ++ lit "})"
  ++ [nl] ++ lit ".strict()".
Proof. reflexivity. Qed.

Lemma merge_tail_replacement3 :
  merge_tail ind0 =
  [nl] ++ lit "})" ++ [nl] ++ lit ".merge(PaginationSchema)"
  ++ [nl] ++ lit ".strict()".
Proof. reflexivity. Qed.

(** X1. A block in the form of pattern 3 - a field line indented by two
    spaces, then ["  ...PaginationSchema.shape"], ["})"] and [".strict()"] -
    is rewritten where it stands, even though substitutions 1 and 2 run over
    the text first: the field line stays, the spread line goes and
    [".merge(PaginationSchema)"] comes before [".strict()"].  The text on
    either side comes out as the transformation returns it on its own. *)
Theorem pattern3_block_rewritten (pre cap post : text) :
  is_field ind2 cap →
  ∃ pre' post',
    transform pre = Some pre' ∧ transform post = Some post' ∧
    transform (pre ++ cap
               ++ ([nl] ++ lit "  ...PaginationSchema.shape" ++ [nl]
                   ++ lit "})" ++ [nl] ++ lit ".strict()")
               ++ post)
    = Some (pre' ++ cap
            ++ ([nl] ++ lit "})" ++ [nl] ++ lit ".merge(PaginationSchema)"
                ++ [nl] ++ lit ".strict()")
            ++ post').
Proof.
  intros Hf. rewrite <- spread_tail_pattern3, <- merge_tail_replacement3.
  exists (fixed_text pre), (fixed_text post).
  rewrite !transform_fixed. repeat split. f_equal. by apply pipeline_block3.
Qed.

Lemma pattern3_block_rewritten_witness :
  ∃ pre' post',
    transform (unlines ["export const PagedSchema = z.object({"%string])
      = Some pre' ∧
    transform [nl] = Some post' ∧
    transform (unlines ["export const PagedSchema = z.object({"%string]
               ++ lit "  response_format: ResponseFormatSchema,"
               ++ ([nl] ++ lit "  ...PaginationSchema.shape" ++ [nl]
                   ++ lit "})" ++ [nl] ++ lit ".strict()")
               ++ [nl])
    = Some (pre' ++ lit "  response_format: ResponseFormatSchema,"
            ++ ([nl] ++ lit "})" ++ [nl] ++ lit ".merge(PaginationSchema)"
                ++ [nl] ++ lit ".strict()")
            ++ post').
Proof.
  apply pattern3_block_rewritten.
  apply (IsField ind2 (lit "response_format") (lit "ResponseFormatSchema"));
    [discriminate|reflexivity|discriminate|reflexivity].
Defined.

(** X2. A text in which the token [...PaginationSchema.shape] does not
    occur is returned unchanged. *)
Theorem transform_without_spread (content : text) :
  contains spread content = false → transform content = Some content.
Proof.
  intros H. rewrite transform_fixed. f_equal. unfold fixed_text, sub1.
  rewrite rewrite_no_spread by done. rewrite sub2_no_spread by done.
  by apply rewrite_no_spread.
Qed.

Lemma transform_without_spread_witness :
  transform sample_plain = Some sample_plain.
Proof. apply transform_without_spread. vm_compute. reflexivity. Defined.

(** X3. The output has as many newlines and as many commas as the input:
    a rewritten block trades one line for another and keeps the comma of
    the field line. *)
Theorem transform_keeps_lines_and_commas (content : text) :
  ∃ out, transform content = Some out ∧
         count_char nl out = count_char nl content ∧
         count_char "," out = count_char "," content.
Proof.
  exists (fixed_text content). split; [apply transform_fixed|].
  rewrite fixed_text_sub3_sub1. unfold sub3, sub1.
  split; by rewrite !rewrite_count.
Qed.

(** X4. Every rewritten block makes the text three characters shorter:
    the input is longer than the output by a multiple of three, and when
    the lengths agree the output is the input. *)
Theorem transform_shortens_by_threes (content : text) :
  ∃ out k, transform content = Some out ∧
           length content = length out + 3 * k ∧
           (k = 0 → out = content).
Proof.
  destruct (rewrite_length ind4 ind2 3 content eq_refl) as (k1 & Hk1 & Hid1).
  destruct (rewrite_length ind2 ind0 3 (sub1 content) eq_refl)
    as (k3 & Hk3 & Hid3).
  exists (fixed_text content), (k1 + k3).
  split; [apply transform_fixed|]. rewrite fixed_text_sub3_sub1.
  unfold sub3, sub1 in *. split; [lia|].
  intros Hk. rewrite Hid3 by lia. apply Hid1. lia.
Qed.

(** X5. In the output none of the three patterns has a match. *)
Theorem transform_output_unmatched (content : text) :
  ∃ out, transform content = Some out ∧
         Re.has_match pattern1 out = Some false ∧
         Re.has_match pattern2 out = Some false ∧
         Re.has_match pattern3 out = Some false.
Proof.
  exists (fixed_text content). split; [apply transform_fixed|].
  destruct (pipeline_clear content) as [H1 H3]. fold (fixed_text content) in H1, H3.
  unfold Re.has_match.
  rewrite compile_pattern1, compile_pattern2, compile_pattern3.
  cbn [mbind option_bind]. split; [|split]; f_equal.
  - by apply search_field_false.
  - apply search_false. intros p q Heq.
    destruct (Re.match_at regex2 q) as [m|] eqn:Hm; [|done].
    destruct H1. exists p, q. split; [done|]. by eapply match2_starts1.
  - by apply search_field_false.
Qed.

(** X6. Whenever the output differs from the input it contains
    [.merge(PaginationSchema)]. *)
Theorem transform_change_inserts_merge (content out : text) :
  transform content = Some out → out ≠ content →
  contains merge_call out = true.
Proof.
  rewrite transform_fixed, fixed_text_sub3_sub1. intros [= <-] Hne.
  destruct (decide (sub3 (sub1 content) = sub1 content)) as [Heq|Hne3].
  - rewrite Heq in Hne |- *.
    apply (rewrite_changed ind4 ind2) in Hne as (u & cap & rest & Hout).
    unfold sub1. rewrite Hout, (app_assoc u cap). apply contains_merge_call.
  - apply (rewrite_changed ind2 ind0) in Hne3 as (u & cap & rest & Hout).
    unfold sub3. rewrite Hout, (app_assoc u cap). apply contains_merge_call.
Qed.

Lemma transform_change_inserts_merge_witness :
  contains merge_call sample_reading_fixed = true.
Proof.
  apply (transform_change_inserts_merge sample_reading).
  - vm_compute. reflexivity.
  - intros H. vm_compute in H. discriminate H.
Defined.

(** X7. Substitutions 1 and 3 can be run in either order: the result is
    the same. *)
Theorem sub1_sub3_either_order (content : text) :
  Re.sub pattern1 replacement1 content ≫= Re.sub pattern3 replacement3 =
  Re.sub pattern3 replacement3 content ≫= Re.sub pattern1 replacement1.
Proof.
  rewrite sub_pattern1, sub_pattern3. cbn [mbind option_bind].
  rewrite sub_pattern1, sub_pattern3. f_equal. apply sub1_sub3_commute.
Qed.

(** * Further properties of the run *)

Section RunMore.

Implicit Types (w : world) (p : string) (f : file).




(** The loop body when the file can be opened both ways and the device
    takes only the first [n] characters of the new text. *)
Lemma fix_file_write_short w p f n :
  fs w !! p = Some f →
  can_open_r f = true → can_read f = true → decodes f = true →
  can_open_w f = true →
  write_room f = Some n → (n < length (fixed_text (content f)))%nat →
  ∃ w', fix_file p w = (inl (OSError p), w') ∧
        fs w' !! p = Some (with_content f (take n (fixed_text (content f)))).
Proof.
  intros Hp Hor Hr Hd How Hroom Hn.
  rewrite (fix_file_to_write w p f) by done.
  unfold bind, write. cbn [fs]. rewrite lookup_insert_eq.
  cbn [with_content write_room content app]. rewrite Hroom. cbn [fits stored].
  apply Nat.leb_gt in Hn. rewrite Hn.
  eexists. split; [reflexivity|]. cbn [set_fs fs].
  by rewrite lookup_insert_eq.
Qed.

(** The loop body when it fails before the file is opened for writing. *)
Lemma fix_file_refused_early w p :
  (∀ f, fs w !! p = Some f →
        can_open_r f && can_read f && decodes f && can_open_w f = false) →
  ∃ e w', fix_file p w = (inl e, w') ∧ fs w' = fs w ∧
          (fs w !! p = None → e = FileNotFoundError p).
Proof.
  intros Hbad.
  unfold fix_file, bind, open_r, read, open_w, write, print, lift_re.
  destruct (fs w !! p) as [f|] eqn:Hp.
  2:{ by eexists _, w. }
  specialize (Hbad f eq_refl).
  destruct (can_open_r f) eqn:Hor.
  2:{ by eexists _, w. }
  cbn [fs log]. rewrite Hp. destruct (can_read f) eqn:Hr.
  2:{ by eexists _, _. }
  destruct (decodes f) eqn:Hd.
  2:{ by eexists _, _. }
  rewrite transform_fixed. unfold ret. cbn [fs log]. rewrite Hp.
  destruct (can_open_w f) eqn:How; [discriminate|].
  by eexists _, _.
Qed.

End RunMore.

(** X8. Run again after a successful run, the script succeeds again and
    leaves every file as the first run left it. *)
Theorem second_run_changes_no_file (w : world) :
  (∀ p, p ∈ files_to_fix → ∃ f, fs w !! p = Some f ∧ usable f = true) →
  (∀ p, p ∈ files_to_fix → is_Some (stdout_encode w (confirmation p))) →
  is_Some (stdout_encode w completion) →
  ∃ w1 w2,
    main w = (inr (), w1) ∧ main w1 = (inr (), w2) ∧ fs w2 = fs w1.
Proof.
  intros Hall Henc Hdone. eexists _, _. split; [by apply main_ok|].
  set (w1 := World (fs (after w files_to_fix)) _ _ _ _).
  assert (Hin : ∀ p, p ∈ files_to_fix →
            ∃ f, fs w !! p = Some f ∧ usable f = true ∧
                 fs w1 !! p = Some (with_content f (fixed_text (content f)))).
  { intros p Hp. destruct (Hall p Hp) as (f & Hf & Hu). exists f.
    split; [done|]. split; [done|]. cbn [w1 fs].
    by apply after_lookup_in; [apply files_nodup|..]. }
  assert (Hall1 : ∀ p, p ∈ files_to_fix →
            ∃ f, fs w1 !! p = Some f ∧ usable f = true).
  { intros p Hp. destruct (Hin p Hp) as (f & _ & Hu & Hf1).
    eexists. split; [exact Hf1|].
    apply usable_flags in Hu as (Hor & Hr & Hd & How & Hfit).
    unfold usable, with_content.
    cbn [content can_open_r can_read decodes can_open_w write_room].
    by rewrite Hor, Hr, Hd, How, fixed_text_idem, Hfit. }
  split; [by apply main_ok|]. cbn [fs].
  apply map_eq. intros q.
  change (fs (after w1 files_to_fix) !! q = fs w1 !! q).
  destruct (decide (q ∈ files_to_fix)) as [Hq|Hq].
  - destruct (Hin q Hq) as (f & _ & _ & Hf1).
    rewrite (after_lookup_in _ _ _ _ files_nodup Hq Hf1), Hf1.
    unfold with_content.
    cbn [content can_open_r can_read decodes can_open_w write_room].
    by rewrite fixed_text_idem.
  - by apply after_lookup_notin.
Qed.

Lemma second_run_changes_no_file_witness :
  ∃ w1 w2,
    main sample_world = (inr (), w1) ∧ main w1 = (inr (), w2) ∧
    fs w2 = fs w1.
Proof.
  apply second_run_changes_no_file;
    [exact sample_world_usable|exact sample_world_accepts
    |exact sample_world_accepts_completion].
Defined.




(** X11. If the first failing file can be read and opened for writing but
    the device takes only the first [n] characters of the new text, the run
    ends with that error and the file holds those [n] characters: it was
    truncated when it was opened, and what the write stored stays. *)
Theorem write_failure_leaves_part (w : world) (before : list string)
    (p : string) (later : list string) (f : file) (n : nat) :
  files_to_fix = before ++ p :: later →
  (∀ q, q ∈ before → ∃ f, fs w !! q = Some f ∧ usable f = true) →
  (∀ q, q ∈ before → is_Some (stdout_encode w (confirmation q))) →
  fs w !! p = Some f →
  can_open_r f = true → can_read f = true → decodes f = true →
  can_open_w f = true →
  write_room f = Some n → (n < length (fixed_text (content f)))%nat →
  ∃ w' t,
    transform (content f) = Some t ∧
    main w = (inl (OSError p), w') ∧
    fs w' !! p = Some (with_content f (take n t)).
Proof.
  intros Hsplit Hbefore Henc Hp Hor Hr Hd How Hroom Hn.
  destruct (split_nodup _ _ _ Hsplit) as (_ & Hnb & _).
  destruct (fix_file_write_short (after w before) p f n)
    as (w' & Hfail & Hf'); [|done..|].
  { by rewrite after_lookup_notin. }
  exists w', (fixed_text (content f)).
  split; [apply transform_fixed|]. split; [|done]. by eapply main_stops_at.
Qed.

Lemma write_failure_leaves_part_witness :
  ∃ w' t,
    transform sample_reading = Some t ∧
    main sample_world_full = (inl (OSError "src/tools/reading.ts"), w') ∧
    fs w' !! "src/tools/reading.ts"%string =
    Some (with_content (File sample_reading true true true true (Some 20))
                       (take 20 t)).
Proof.
  apply (write_failure_leaves_part sample_world_full
           ["src/tools/discovery.ts"%string] "src/tools/reading.ts"%string
           ["src/schemas/common.ts"%string]
           (File sample_reading true true true true (Some 20)) 20);
    try reflexivity.
  - intros q Hq. apply list_elem_of_singleton in Hq as ->.
    eexists. split; [vm_compute; reflexivity|reflexivity].
  - intros q _. eexists. reflexivity.
  - apply Nat.ltb_lt. vm_compute. reflexivity.
Defined.

(** X12. If the first failing file is missing, or opening it, reading it,
    decoding it or opening it for writing is refused, the run ends with an
    error and that path is as it was; a missing file gives
    [FileNotFoundError]. *)
Theorem early_failure_leaves_file (w : world) (before : list string)
    (p : string) (later : list string) :
  files_to_fix = before ++ p :: later →
  (∀ q, q ∈ before → ∃ f, fs w !! q = Some f ∧ usable f = true) →
  (∀ q, q ∈ before → is_Some (stdout_encode w (confirmation q))) →
  (∀ f, fs w !! p = Some f →
        can_open_r f && can_read f && decodes f && can_open_w f = false) →
  ∃ e w', main w = (inl e, w') ∧ fs w' !! p = fs w !! p ∧
          (fs w !! p = None → e = FileNotFoundError p).
Proof.
  intros Hsplit Hbefore Henc Hbad.
  destruct (split_nodup _ _ _ Hsplit) as (_ & Hnb & _).
  destruct (fix_file_refused_early (after w before) p)
    as (e & w' & Hfail & Hfs & Hnone).
  { intros f. rewrite after_lookup_notin by done. apply Hbad. }
  exists e, w'. split; [by eapply main_stops_at|]. split.
  - rewrite Hfs. by apply after_lookup_notin.
  - intros Hp. apply Hnone. by rewrite after_lookup_notin.
Qed.

Lemma early_failure_leaves_file_witness :
  ∃ e w', main sample_world_missing = (inl e, w') ∧
          fs w' !! "src/tools/discovery.ts"%string =
          fs sample_world_missing !! "src/tools/discovery.ts"%string ∧
          (fs sample_world_missing !! "src/tools/discovery.ts"%string = None →
           e = FileNotFoundError "src/tools/discovery.ts").
Proof.
  apply (early_failure_leaves_file sample_world_missing []
           "src/tools/discovery.ts"%string
           ["src/tools/reading.ts"; "src/schemas/common.ts"]%string).
  - reflexivity.
  - intros q Hq. by apply elem_of_nil in Hq.
  - intros q Hq. by apply elem_of_nil in Hq.
  - intros f Hf. vm_compute in Hf. discriminate Hf.
Defined.

(** X13. When the run fails at some file, the files before it in the list
    stay rewritten: each holds what the transformation returned on its
    previous content. *)
Theorem failure_keeps_earlier_fixes (w : world) (before : list string)
    (p : string) (later : list string) :
  files_to_fix = before ++ p :: later →
  (∀ q, q ∈ before → ∃ f, fs w !! q = Some f ∧ usable f = true) →
  (∀ q, q ∈ before → is_Some (stdout_encode w (confirmation q))) →
  (∀ f, fs w !! p = Some f → usable f = false) →
  ∃ e w',
    main w = (inl e, w') ∧
    ∀ q f, q ∈ before → fs w !! q = Some f →
           ∃ t, transform (content f) = Some t ∧
                fs w' !! q = Some (with_content f t).
Proof.
  intros Hsplit Hbefore Henc Hbad.
  destruct (split_nodup _ _ _ Hsplit) as (Hnd1 & Hnb & _).
  destruct (fix_file_fails (after w before) p)
    as (e & w' & Hfail & _ & _ & _ & Hfs & _).
  { intros f. rewrite after_lookup_notin by done. apply Hbad. }
  exists e, w'. split; [by eapply main_stops_at|].
  intros q f Hq Hf. exists (fixed_text (content f)).
  split; [apply transform_fixed|].
  rewrite Hfs by (intros ->; done). by apply after_lookup_in.
Qed.

Lemma failure_keeps_earlier_fixes_witness :
  ∃ e w',
    main sample_world_readonly = (inl e, w') ∧
    ∀ q f, q ∈ ["src/tools/discovery.ts"%string] →
           fs sample_world_readonly !! q = Some f →
           ∃ t, transform (content f) = Some t ∧
                fs w' !! q = Some (with_content f t).
Proof.
  apply (failure_keeps_earlier_fixes sample_world_readonly
           ["src/tools/discovery.ts"%string] "src/tools/reading.ts"%string
           ["src/schemas/common.ts"%string]).
  - reflexivity.
  - intros q Hq. apply list_elem_of_singleton in Hq as ->.
    eexists. split; [vm_compute; reflexivity|reflexivity].
  - intros q _. eexists. reflexivity.
  - intros f Hf. vm_compute in Hf. injection Hf as <-. reflexivity.
Defined.

(** X14. If standard output cannot encode the confirmation line of a
    usable file, while the loop body went through for the files before it,
    the run ends with [UnicodeEncodeError] at that [print]: the file has
    already been rewritten, the files later in the list are as they were,
    and standard output holds the confirmation lines of the earlier files
    and nothing more. *)
Theorem print_failure_stops_run (w : world) (before : list string)
    (p : string) (later : list string) (f : file) :
  files_to_fix = before ++ p :: later →
  (∀ q, q ∈ before → ∃ f, fs w !! q = Some f ∧ usable f = true) →
  (∀ q, q ∈ before → is_Some (stdout_encode w (confirmation q))) →
  fs w !! p = Some f → usable f = true →
  stdout_encode w (confirmation p) = None →
  ∃ w' t,
    transform (content f) = Some t ∧
    main w = (inl UnicodeEncodeError, w') ∧
    fs w' !! p = Some (with_content f t) ∧
    (∀ q, q ∈ later → fs w' !! q = fs w !! q) ∧
    stdout w' =
      stdout w ++ flat_map (λ q, emitted w (confirmation q)) before.
Proof.
  intros Hsplit Hbefore Henc Hp Hu Hrefused.
  destruct (split_nodup _ _ _ Hsplit) as (Hnd1 & Hnb & Hlater).
  pose proof (usable_some _ _ Hbefore) as Hsome.
  destruct (fix_file_print_refused (after w before) p f)
    as (w' & Hfail & Hout & _ & Hfs & _).
  { by rewrite after_lookup_notin. }
  { done. }
  { by rewrite after_encode. }
  exists w', (fixed_text (content f)).
  split; [apply transform_fixed|]. split; [by eapply main_stops_at|].
  split; [|split].
  - by rewrite Hfs, lookup_insert_eq.
  - intros q Hq. destruct (Hlater q Hq) as [Hqb Hqp].
    rewrite Hfs, lookup_insert_ne by done. by apply after_lookup_notin.
  - by rewrite Hout, after_stdout.
Qed.

Lemma print_failure_stops_run_witness :
  ∃ w' t,
    transform sample_reindented = Some t ∧
    main sample_world_ascii = (inl UnicodeEncodeError, w') ∧
    fs w' !! "src/tools/discovery.ts"%string =
      Some (with_content (ok_file sample_reindented) t) ∧
    (∀ q, q ∈ ["src/tools/reading.ts"; "src/schemas/common.ts"]%string →
          fs w' !! q = fs sample_world_ascii !! q) ∧
    stdout w' =
      stdout sample_world_ascii
      ++ flat_map (λ q, emitted sample_world_ascii (confirmation q)) [].
Proof.
  apply (print_failure_stops_run sample_world_ascii []
           "src/tools/discovery.ts"%string
           ["src/tools/reading.ts"; "src/schemas/common.ts"]%string
           (ok_file sample_reindented)).
  - reflexivity.
  - intros q Hq. by apply elem_of_nil in Hq.
  - intros q Hq. by apply elem_of_nil in Hq.
  - vm_compute. reflexivity.
  - reflexivity.
  - vm_compute. reflexivity.
Defined.
